(** * Allusion: search criteria, tag counting, gallery layout and byte labels

    A shallow embedding of the TypeScript sources of the Allusion image
    library and the properties proved about them.

    - [Number]: JavaScript numbers as IEEE 754 binary64 values
      (Stdlib's [spec_float]) with the [Math] builtins the sources call.
    - [SearchCriteria]: the operator arrays and criterion interfaces of
      the search-criteria module.
    - [FileTag]: [countFileTags] with the insertion-ordered [Map] it fills.
    - [Gallery]: [getThumbnailSize] and [get_column_layout].
    - [Inspector]: [getBytes].
    - [Core]: the tag graph, criterion evaluator and query of the
      specification, which the sources only declare types for.
    - [JsArray], [GalleryIndex], [GalleryScroll]: the gallery's rows, item
      indices, key handlers, slide steps and initial scroll offset.
    - [Carousel], [InspectorHeader]: the inspector's carousel and the
      extension it shows.
    - [FileTagOrder], [NumberSign]: the order of the counted tags and the
      sign of a number, for the properties of the counter and the layout.
    - [Binary64]: the binary64 values among [spec_float], and the round bit
      of a shifted mantissa, for the quotient of the column layout.

    Definitions come first, module by module; the theorems follow. *)

From Stdlib Require Import ZArith Lia Ascii String.
From Stdlib Require Import Floats.SpecFloat.
From stdpp Require Import base list strings relations sorting.

Open Scope Z_scope.

(* ===================================================================== *)
(** * Part I: the embedding                                               *)
(* ===================================================================== *)

(** ** JavaScript numbers *)

Module Number.

(** A JavaScript number is an IEEE 754 binary64 value. *)
Definition prec : Z := 53.
Definition emax : Z := 1024.

Definition number : Type := spec_float.

Definition NaN : number := S754_nan.
Definition Infinity : number := S754_infinity false.

(** An integer literal, rounded to the nearest binary64 value. *)
Definition of_Z (z : Z) : number := binary_normalize prec emax z 0 false.

Definition mul (x y : number) : number := SFmul prec emax x y.
Definition div (x y : number) : number := SFdiv prec emax x y.
Definition add (x y : number) : number := SFadd prec emax x y.

(** [x < y], [x <= y] and [x === y] on numbers. *)
Definition ltb (x y : number) : bool := SFltb x y.
Definition leb (x y : number) : bool := SFleb x y.
Definition eqb (x y : number) : bool := SFeqb x y.

(** The global [isNaN] and [isFinite], on an argument that is a number. *)
Definition isNaN (x : number) : bool :=
  match x with
  | S754_nan => true
  | _ => false
  end.

Definition isFinite (x : number) : bool :=
  match x with
  | S754_zero _ | S754_finite _ _ _ => true
  | S754_infinity _ | S754_nan => false
  end.

(** [Math.trunc]: the integral part, the sign kept (also on a zero). *)
Definition Math_trunc (x : number) : number :=
  match x with
  | S754_finite s m e =>
      if 0 <=? e then x
      else
        match Z.shiftr (Z.pos m) (- e) with
        | Z.pos q => binary_round prec emax s q 0
        | _ => S754_zero s
        end
  | _ => x
  end.

(** [Math.floor]: the greatest integral value not above the argument. *)
Definition Math_floor (x : number) : number :=
  match x with
  | S754_finite s m e =>
      if 0 <=? e then x
      else
        let q := Z.shiftr (Z.pos m) (- e) in
        let exact := Z.shiftl q (- e) =? Z.pos m in
        if s then binary_normalize prec emax (- (if exact then q else q + 1)) 0 true
        else binary_normalize prec emax q 0 false
  | _ => x
  end.

(** [Math.min] of two numbers: NaN when either is, [-0] below [+0]. *)
Definition Math_min (x y : number) : number :=
  match x, y with
  | S754_nan, _ | _, S754_nan => S754_nan
  | S754_zero sx, S754_zero sy => S754_zero (sx || sy)
  | _, _ => if SFltb y x then y else x
  end.

(** The array index a number denotes in [a[i]]: a non-negative integral
    value; any other number names no element. *)
Definition to_index (x : number) : option nat :=
  match x with
  | S754_zero _ => Some 0%nat
  | S754_finite false m e =>
      if 0 <=? e then Some (Z.to_nat (Z.shiftl (Z.pos m) e))
      else
        let q := Z.shiftr (Z.pos m) (- e) in
        if Z.shiftl q (- e) =? Z.pos m then Some (Z.to_nat q) else None
  | _ => None
  end.

End Number.

(** ** The search-criteria module *)

Module SearchCriteria.

Import Number.

Open Scope string_scope.

(** Modelled from the spec: [ID] is imported from [./ID], which is not
    among the sources; the spec calls it an opaque, stable identity. *)
Definition ID : Type := string.

(** A [Date], by its time value: milliseconds since the epoch. *)
Definition Date : Type := Z.

(** *** The operator arrays *)

Definition NumberOperators : list string :=
  [ "equals";
    "notEqual";
    "smallerThan";
    "smallerThanOrEquals";
    "greaterThan";
    "greaterThanOrEquals" ].

Definition NumberOperatorSymbols : list (string * string) :=
  [ ("equals", "=");
    ("notEqual", "≠");
    ("smallerThan", "<");
    ("smallerThanOrEquals", "≤");
    ("greaterThan", ">");
    ("greaterThanOrEquals", "≥") ].

Definition StringOperators : list string :=
  [ "equalsIgnoreCase";
    "equals";
    "notEqual";
    "startsWithIgnoreCase";
    "startsWith";
    "notStartsWith";
    "contains";
    "notContains" ].

Definition StringOperatorLabels : list (string * string) :=
  [ ("equalsIgnoreCase", "Equals");
    ("equals", "Equals");
    ("notEqual", "Not Equal");
    ("startsWithIgnoreCase", "Starts With");
    ("startsWith", "Starts With");
    ("notStartsWith", "Not Starts With");
    ("contains", "Contains");
    ("notContains", "Not Contains") ].

Definition BinaryOperators : list string := [ "equals"; "notEqual" ].

Definition TagOperators : list string :=
  [ "contains";
    "notContains";
    "containsRecursively";
    "containsNotRecursively" ].

(** [typeof A[number]] for a [const] array [A] of string literals: the
    strings that are elements of [A]. *)
Definition literal_of (A : list string) (s : string) : bool :=
  bool_decide (s ∈ A).

Definition NumberOperatorType : string -> bool := literal_of NumberOperators.
Definition StringOperatorType : string -> bool := literal_of StringOperators.
Definition BinaryOperatorType : string -> bool := literal_of BinaryOperators.
Definition TagOperatorType : string -> bool := literal_of TagOperators.

Definition OperatorType (s : string) : bool :=
  TagOperatorType s || NumberOperatorType s || StringOperatorType s
  || BinaryOperatorType s.

(** *** Candidate criterion objects *)

(** The values a property of a candidate object may hold. *)
#[warnings="-register-all"]
Inductive JsValue : Type :=
  | JUndefined
  | JBoolean (b : bool)
  | JNumber (x : number)
  | JString (s : string)
  | JDate (d : Date)
  | JArray (xs : list JsValue).

(** An object with the four properties the criterion interfaces name.
    Its [key], [valueType] and [operator] hold strings. *)
Record Candidate : Type := mkCandidate {
  key : string;
  valueType : string;
  operator : string;
  value : JsValue
}.

(** *** The interfaces, as the objects assignable to them *)

Definition is_string (v : JsValue) : bool :=
  match v with JString _ => true | _ => false end.

Definition is_number (v : JsValue) : bool :=
  match v with JNumber _ => true | _ => false end.

Definition is_Date (v : JsValue) : bool :=
  match v with JDate _ => true | _ => false end.

(** [ID[]]: an array whose elements are all ids. *)
Definition is_ID_array (v : JsValue) : bool :=
  match v with JArray xs => forallb is_string xs | _ => false end.

(** The [valueType] literals of [IBaseSearchCriteria]. *)
Definition valueTypes : list string := [ "number"; "date"; "string"; "array" ].

Section Interfaces.

(** [keyof FileDTO]: the property names of [FileDTO], which [./File]
    declares and the sources do not include. *)
Variable FileDTO_keys : list string.

Definition IBaseSearchCriteria (c : Candidate) : bool :=
  bool_decide (key c ∈ FileDTO_keys)
  && literal_of valueTypes (valueType c)
  && OperatorType (operator c).

Definition ITagSearchCriteria (c : Candidate) : bool :=
  IBaseSearchCriteria c && is_ID_array (value c) && TagOperatorType (operator c).

Definition IStringSearchCriteria (c : Candidate) : bool :=
  IBaseSearchCriteria c && is_string (value c) && StringOperatorType (operator c).

Definition INumberSearchCriteria (c : Candidate) : bool :=
  IBaseSearchCriteria c && is_number (value c) && NumberOperatorType (operator c).

Definition IDateSearchCriteria (c : Candidate) : bool :=
  IBaseSearchCriteria c && is_Date (value c) && NumberOperatorType (operator c).

Definition SearchCriteria (c : Candidate) : bool :=
  ITagSearchCriteria c || IStringSearchCriteria c
  || INumberSearchCriteria c || IDateSearchCriteria c.

End Interfaces.

(** *** The operator sets as the specification lists them *)

Definition spec_tag_operators : list string :=
  [ "contains"; "notContains"; "containsRecursively"; "containsNotRecursively" ].

Definition spec_string_operators : list string :=
  [ "equalsIgnoreCase"; "equals"; "notEqual"; "startsWithIgnoreCase";
    "startsWith"; "notStartsWith"; "contains"; "notContains" ].

Definition spec_number_operators : list string :=
  [ "equals"; "notEqual"; "smallerThan"; "smallerThanOrEquals";
    "greaterThan"; "greaterThanOrEquals" ].

(** The operator set the specification declares for a value-type family,
    the family named by a criterion's [valueType]. *)
Definition spec_family_operators (vt : string) : list string :=
  if decide (vt = "array") then spec_tag_operators
  else if decide (vt = "string") then spec_string_operators
  else if decide (vt = "number") then spec_number_operators
  else if decide (vt = "date") then spec_number_operators
  else [].

(** The operand shape the specification gives a value-type family. *)
Definition spec_family_operand (vt : string) (v : JsValue) : bool :=
  if decide (vt = "array") then is_ID_array v
  else if decide (vt = "string") then is_string v
  else if decide (vt = "number") then is_number v
  else if decide (vt = "date") then is_Date v
  else false.

(** The operator array a criterion's operand selects: the interfaces of
    the union tell their members apart by the type of [value]. *)
Definition operators_for_operand (v : JsValue) : list string :=
  if is_ID_array v then TagOperators
  else if is_string v then StringOperators
  else if is_number v || is_Date v then NumberOperators
  else [].

(** *** Property modifiers *)









End SearchCriteria.

(** ** Counting the tags of a selection of files *)

Module FileTag.

Section CountFileTags.

(** [ClientTag] objects are [Map] keys, told apart by identity. *)
Context {ClientTag : Type} `{EqDecision ClientTag}.

(** A [ClientFile], by its [tags]: an [ObservableSet], given as its
    elements in iteration order. A set holds no element twice. *)
Record ClientFile : Type := mkClientFile { tags : list ClientTag }.

(** [Map<ClientTag, number>]: the entries in insertion order, one per key. *)
Definition Map : Type := list (ClientTag * Z).

Fixpoint Map_get (m : Map) (k : ClientTag) : option Z :=
  match m with
  | [] => None
  | (k', v) :: m' => if decide (k = k') then Some v else Map_get m' k
  end.

(** [m.set(k, v)]: a present key keeps its place, a new one goes last. *)
Fixpoint Map_set (m : Map) (k : ClientTag) (v : Z) : Map :=
  match m with
  | [] => [(k, v)]
  | (k', v') :: m' =>
      if decide (k = k') then (k, v) :: m' else (k', v') :: Map_set m' k v
  end.

(** [Array.prototype.sort] with a comparator: the sort is stable, and
    [cmp a b > 0] places [b] before [a]. *)
Fixpoint insert_by {A : Type} (cmp : A -> A -> Z) (x : A) (l : list A) : list A :=
  match l with
  | [] => [x]
  | y :: l' => if 0 <? cmp x y then y :: insert_by cmp x l' else x :: l
  end.

Definition Array_sort {A : Type} (cmp : A -> A -> Z) (l : list A) : list A :=
  foldr (insert_by cmp) [] l.

(** The loop body of [countFileTags] for one tag of one file. *)
Definition count_tag (counter : Map) (tag : ClientTag) : Map :=
  let count := Map_get counter tag in
  Map_set counter tag (match count with Some count => count + 1 | None => 1 end).

Definition countFileTags (files : list ClientFile) : Map * list ClientTag :=
  (* Count how often tags are used *)
  let counter :=
    foldl (fun counter file => foldl count_tag counter (tags file)) [] files in
  let sortedTags :=
    fst <$>
      ((* Sort based on count *)
       Array_sort (fun a b => b.2 - a.2) counter) in
  (counter, sortedTags).

(** The number of files of a collection that carry a tag. *)
Definition files_with (t : ClientTag) (files : list ClientFile) : Z :=
  Z.of_nat (length (filter (fun file => t ∈ tags file) files)).

(** The count a counter gives a tag, [0] for an absent one. *)
Definition count_of (counter : Map) (t : ClientTag) : Z :=
  default 0 (Map_get counter t).

(** How often a tag occurs in a list of tags, and in all of the tag lists
    of a collection of files. *)
Definition occurrences (t : ClientTag) (ts : list ClientTag) : Z :=
  Z.of_nat (length (filter (fun u => t = u) ts)).

Definition total_occurrences (t : ClientTag) (files : list ClientFile) : Z :=
  foldr (fun file acc => occurrences t (tags file) + acc) 0 files.

(** Every count of a counter is positive. *)
Definition positive (counter : Map) : Prop :=
  ∀ t n, Map_get counter t = Some n → 0 < n.

(** The order [countFileTags] sorts the entries in: a greater or equal
    count comes first. *)
Definition by_count (a b : ClientTag * Z) : Prop := b.2 ≤ a.2.

End CountFileTags.

Arguments ClientFile : clear implicits.
Arguments Map : clear implicits.

End FileTag.

(** ** The gallery's column layout *)

Module Gallery.

Import Number.

Definition PADDING : number := of_Z 8.
Definition CELL_SIZE_SMALL : number := add (of_Z 160) PADDING.
Definition CELL_SIZE_MEDIUM : number := add (of_Z 240) PADDING.
Definition CELL_SIZE_LARGE : number := add (of_Z 320) PADDING.

(** The literal [0.9]: the binary64 value nearest to nine tenths. *)
Definition SHRINK_FACTOR : number := S754_finite false 8106479329266893 (-53).

Inductive SizeType : Type := small | medium | large.

Definition getThumbnailSize (sizeType : SizeType) : number * number :=
  match sizeType with
  | small => (mul CELL_SIZE_SMALL SHRINK_FACTOR, CELL_SIZE_SMALL)
  | medium => (mul CELL_SIZE_MEDIUM SHRINK_FACTOR, CELL_SIZE_MEDIUM)
  | large => (mul CELL_SIZE_LARGE SHRINK_FACTOR, CELL_SIZE_LARGE)
  end.

Definition get_column_layout (width minSize maxSize : number) : number * number :=
  let numColumns := Math_trunc (div width minSize) in
  let cellSize := Math_trunc (div width numColumns) in
  let cellSize :=
    if isNaN cellSize || negb (isFinite cellSize) then minSize else cellSize in
  let cellSize := Math_min cellSize maxSize in
  (numColumns, cellSize).

(** A number that is neither NaN nor an infinity. *)
Definition finite (x : number) : Prop := isFinite x = true.

(** A number that is a zero of either sign. *)
Definition is_zero (x : number) : bool :=
  match x with S754_zero _ => true | _ => false end.

End Gallery.

(** ** The inspector's byte labels *)

Module Inspector.

Import Number.

Open Scope string_scope.

(** The calls [getBytes] makes to library functions, in order. *)
Inductive Call : Type :=
  | Call_log (x : number)
  | Call_floor (x : number)
  | Call_pow (x y : number)
  | Call_toFixed (x : number) (digits : nat).

(** A computation that records its library calls. *)
Definition Traced (A : Type) : Type := list Call * A.

#[local] Instance Traced_ret : MRet Traced := fun A a => ([], a).

#[local] Instance Traced_bind : MBind Traced := fun A B k m =>
  let '(t1, a) := m in
  let '(t2, b) := k a in
  ((t1 ++ t2)%list, b).

Definition sufixes : list string :=
  [ "Bytes"; "KB"; "MB"; "GB"; "TB"; "PB"; "EB"; "ZB"; "YB" ].

(** [sufixes[i]] inside a string concatenation: an index that names no
    element reads [undefined]. *)
Definition sufix_at (i : number) : string :=
  match to_index i with
  | Some n => default "undefined" (sufixes !! n)
  | None => "undefined"
  end.

Section GetBytes.

(** [Math.log], [Math.pow] and [Number.prototype.toFixed], whose results
    the engine decides. *)
Variable Math_log : number -> number.
Variable Math_pow : number -> number -> number.
Variable toFixed : number -> nat -> string.

Definition log (x : number) : Traced number := ([Call_log x], Math_log x).
Definition floor (x : number) : Traced number := ([Call_floor x], Math_floor x).
Definition pow (x y : number) : Traced number := ([Call_pow x y], Math_pow x y).
Definition fixed (x : number) (d : nat) : Traced string :=
  ([Call_toFixed x d], toFixed x d).

Definition getBytes (bytes : number) : Traced string :=
  if leb bytes (of_Z 0) then mret "0 Bytes"
  else
    l ← log bytes;
    k ← log (of_Z 1024);
    i ← floor (div l k);
    p ← pow (of_Z 1024) i;
    s ← fixed (div bytes p) 2;
    mret (s +:+ " " +:+ sufix_at i).

End GetBytes.

End Inspector.

(** ** The query core of the specification *)

(** The sources declare the criterion types only. The tag graph, the
    criterion evaluator and the query are modelled from the specification's
    component contracts (sections 3 and 4). *)

Module Core.

Import Number.

Definition ID : Type := SearchCriteria.ID.

(** *** Tag graph (section 4.1) *)

(** Modelled from the spec: the tag graph, which no source file
    implements. The graph owns the parent/child edges; it is given as the
    list of its edges, parent first. *)
Abbreviation TagGraph := (list (ID * ID)).

Definition child (g : TagGraph) (p c : ID) : Prop := (p, c) ∈ g.

Definition children (g : TagGraph) (t : ID) : list ID :=
  snd <$> filter (fun e => e.1 = t) g.

(** Modelled from the spec: the traversal behind [descendants], with a
    work list of tags still to look at and the set of tags visited so far;
    a visited tag is not expanded again. *)
Fixpoint traverse (fuel : nat) (g : TagGraph) (work visited : list ID) : list ID :=
  match fuel with
  | O => visited
  | S fuel' =>
      match work with
      | [] => visited
      | t :: rest =>
          if decide (t ∈ visited) then traverse fuel' g rest visited
          else traverse fuel' g (children g t ++ rest) (t :: visited)
      end
  end.

(** The tags reachable from [t] along one or more child edges. Every step
    of the traversal either drops a work item or retires the edges of a
    newly visited tag, so this much fuel lets it run to the end. *)
Definition reach (g : TagGraph) (t : ID) : list ID :=
  traverse (length (children g t) + length g) g (children g t) [].

(** The steps the traversal has left at most: the work items, plus the
    edges whose parent is not visited yet. *)
Definition potential (g : TagGraph) (work visited : list ID) : nat :=
  (length work + length (filter (fun e => e.1 ∉ visited) g))%nat.

(** A set of tags that holds the children of each of its tags. *)
Definition closed (g : TagGraph) (r : list ID) : Prop :=
  ∀ x y, x ∈ r → child g x y → y ∈ r.

(** Modelled from the spec: [descendants(tagId)], the transitive closure of
    children reachable from [tagId], excluding [tagId] itself. *)
Definition descendants (g : TagGraph) (t : ID) : list ID :=
  filter (fun d => d ≠ t) (reach g t).

Definition flip_edges (g : TagGraph) : TagGraph := (fun e => (e.2, e.1)) <$> g.

(** Modelled from the spec: [ancestors(tagId)], the same closure over
    parents. *)
Definition ancestors (g : TagGraph) (t : ID) : list ID :=
  descendants (flip_edges g) t.

(** Modelled from the spec: the error taxonomy of section 7. *)
Inductive Error : Type :=
  | ConstructionError
  | CycleError
  | EvaluationInvariantViolation.

Inductive Result (A : Type) : Type :=
  | Ok (a : A)
  | Err (e : Error).
Arguments Ok {A} a.
Arguments Err {A} e.

(** Modelled from the spec: [addEdge(parent, child)] fails with
    [CycleError] when the edge would create a cycle, and otherwise records
    the edge idempotently. *)
Definition addEdge (g : TagGraph) (parent child : ID) : Result TagGraph :=
  if decide (child = parent ∨ child ∈ ancestors g parent) then Err CycleError
  else if decide ((parent, child) ∈ g) then Ok g
  else Ok (g ++ [(parent, child)]).

(** Modelled from the spec: [removeEdge(parent, child)] detaches the edge;
    no error if absent. *)
Definition removeEdge (g : TagGraph) (parent child : ID) : TagGraph :=
  filter (fun e => e ≠ (parent, child)) g.

(** The graph invariant: the parent/child relation is acyclic. *)
Definition acyclic (g : TagGraph) : Prop := ∀ t, ¬ tc (child g) t t.

(** The tag graphs: what [addEdge] and [removeEdge] build from the graph
    without edges. *)
Inductive tag_graph : TagGraph -> Prop :=
  | tag_graph_empty : tag_graph []
  | tag_graph_add g parent child g' :
      tag_graph g -> addEdge g parent child = Ok g' -> tag_graph g'
  | tag_graph_remove g parent child :
      tag_graph g -> tag_graph (removeEdge g parent child).

(** A check of the invariant: no tag with a child reaches itself. *)
Definition acyclicb (g : TagGraph) : bool :=
  forallb (fun e => bool_decide (e.1 ∉ reach g e.1)) g.

(** *** Files and criteria (section 3) *)

Inductive FieldValue : Type :=
  | FString (s : string)
  | FNumber (x : number)
  | FDate (d : SearchCriteria.Date).

(** Modelled from the spec: a file, as the core reads it: an identity,
    the set of assigned tag ids and the fields addressed by a field key. *)
Record File : Type := mkFile {
  file_id : ID;
  file_tags : list ID;
  field : string -> option FieldValue
}.

Module TagOp.
Inductive t : Type :=
  | contains | notContains | containsRecursively | containsNotRecursively.
End TagOp.

Module StringOp.
Inductive t : Type :=
  | equalsIgnoreCase | equals | notEqual | startsWithIgnoreCase
  | startsWith | notStartsWith | contains | notContains.
End StringOp.

Module NumberOp.
Inductive t : Type :=
  | equals | notEqual | smallerThan | smallerThanOrEquals
  | greaterThan | greaterThanOrEquals.
End NumberOp.

(** Modelled from the spec: a criterion is a tagged union with one variant
    per value-type family, each with its own operators and operand. *)
Inductive Criterion : Type :=
  | TagCriterion (key : string) (op : TagOp.t) (operand : list ID)
  | StringCriterion (key : string) (op : StringOp.t) (operand : string)
  | NumberCriterion (key : string) (op : NumberOp.t) (operand : number)
  | DateCriterion (key : string) (op : NumberOp.t) (operand : SearchCriteria.Date).

(** *** Criterion evaluator (section 4.2) *)

Definition lower_ascii (c : ascii) : ascii :=
  let n := nat_of_ascii c in
  if ((65 <=? n) && (n <=? 90))%nat then ascii_of_nat (n + 32) else c.

Fixpoint fold_case (s : string) : string :=
  match s with
  | EmptyString => EmptyString
  | String c s' => String (lower_ascii c) (fold_case s')
  end.

Definition starts_with (s p : string) : bool := String.prefix p s.

Fixpoint has_substring (s p : string) : bool :=
  String.prefix p s
  || match s with
     | EmptyString => false
     | String _ s' => has_substring s' p
     end.

(** Modelled from the spec: the string family; only the [IgnoreCase]
    operators fold case, and a [not] operator negates its counterpart. *)
Definition eval_string (op : StringOp.t) (v operand : string) : bool :=
  match op with
  | StringOp.equalsIgnoreCase => bool_decide (fold_case v = fold_case operand)
  | StringOp.equals => bool_decide (v = operand)
  | StringOp.notEqual => negb (bool_decide (v = operand))
  | StringOp.startsWithIgnoreCase => starts_with (fold_case v) (fold_case operand)
  | StringOp.startsWith => starts_with v operand
  | StringOp.notStartsWith => negb (starts_with v operand)
  | StringOp.contains => has_substring v operand
  | StringOp.notContains => negb (has_substring v operand)
  end.

(** Modelled from the spec: the number/date family on numbers. *)
Definition eval_number (op : NumberOp.t) (v operand : number) : bool :=
  match op with
  | NumberOp.equals => eqb v operand
  | NumberOp.notEqual => negb (eqb v operand)
  | NumberOp.smallerThan => ltb v operand
  | NumberOp.smallerThanOrEquals => leb v operand
  | NumberOp.greaterThan => ltb operand v
  | NumberOp.greaterThanOrEquals => leb operand v
  end.

(** Modelled from the spec: the number/date family on dates; a date is
    compared as its integer timestamp. *)
Definition eval_date (op : NumberOp.t) (v operand : SearchCriteria.Date) : bool :=
  match op with
  | NumberOp.equals => v =? operand
  | NumberOp.notEqual => negb (v =? operand)
  | NumberOp.smallerThan => v <? operand
  | NumberOp.smallerThanOrEquals => v <=? operand
  | NumberOp.greaterThan => operand <? v
  | NumberOp.greaterThanOrEquals => operand <=? v
  end.

(** Whether two sets of tag ids intersect. *)
Definition intersects (xs ys : list ID) : bool :=
  existsb (fun x => bool_decide (x ∈ ys)) xs.

(** Each operand tag id with its descendants. *)
Definition closure (g : TagGraph) (operand : list ID) : list ID :=
  flat_map (fun t => t :: descendants g t) operand.

(** Modelled from the spec: the tag family. *)
Definition eval_tag (op : TagOp.t) (g : TagGraph) (assigned operand : list ID) : bool :=
  match op with
  | TagOp.contains => intersects assigned operand
  | TagOp.notContains => negb (intersects assigned operand)
  | TagOp.containsRecursively => intersects assigned (closure g operand)
  | TagOp.containsNotRecursively => negb (intersects assigned (closure g operand))
  end.

(** Modelled from the spec: [evaluate(criterion, file, tagGraph)]. A
    criterion whose key addresses no field of its family's type is
    ill-formed and fails fast. *)
Definition evaluate (c : Criterion) (f : File) (g : TagGraph) : Result bool :=
  match c with
  | TagCriterion _ op operand => Ok (eval_tag op g (file_tags f) operand)
  | StringCriterion k op operand =>
      match field f k with
      | Some (FString v) => Ok (eval_string op v operand)
      | _ => Err EvaluationInvariantViolation
      end
  | NumberCriterion k op operand =>
      match field f k with
      | Some (FNumber v) => Ok (eval_number op v operand)
      | _ => Err EvaluationInvariantViolation
      end
  | DateCriterion k op operand =>
      match field f k with
      | Some (FDate v) => Ok (eval_date op v operand)
      | _ => Err EvaluationInvariantViolation
      end
  end.

(** A criterion is well-formed for a file when its key addresses a field
    of the criterion's family. *)
Definition well_formed (c : Criterion) (f : File) : Prop :=
  match c with
  | TagCriterion _ _ _ => True
  | StringCriterion k _ _ => ∃ v, field f k = Some (FString v)
  | NumberCriterion k _ _ => ∃ v, field f k = Some (FNumber v)
  | DateCriterion k _ _ => ∃ v, field f k = Some (FDate v)
  end.

(** The paired operators: a positive operator and its [not] counterpart. *)
Inductive tag_pair : TagOp.t -> TagOp.t -> Prop :=
  | pair_tag_contains : tag_pair TagOp.contains TagOp.notContains
  | pair_tag_recursively :
      tag_pair TagOp.containsRecursively TagOp.containsNotRecursively.

Inductive string_pair : StringOp.t -> StringOp.t -> Prop :=
  | pair_string_equals : string_pair StringOp.equals StringOp.notEqual
  | pair_string_startsWith : string_pair StringOp.startsWith StringOp.notStartsWith
  | pair_string_contains : string_pair StringOp.contains StringOp.notContains.

Inductive number_pair : NumberOp.t -> NumberOp.t -> Prop :=
  | pair_number_equals : number_pair NumberOp.equals NumberOp.notEqual.

(** Two criteria that differ only in their operators, which are paired. *)
Inductive paired : Criterion -> Criterion -> Prop :=
  | paired_tag k p n operand :
      tag_pair p n -> paired (TagCriterion k p operand) (TagCriterion k n operand)
  | paired_string k p n operand :
      string_pair p n ->
      paired (StringCriterion k p operand) (StringCriterion k n operand)
  | paired_number k p n operand :
      number_pair p n ->
      paired (NumberCriterion k p operand) (NumberCriterion k n operand)
  | paired_date k p n operand :
      number_pair p n ->
      paired (DateCriterion k p operand) (DateCriterion k n operand).

(** *** Query (section 4.3) *)

Inductive Mode : Type := matchAll | matchAny.

(** Modelled from the spec: a query is an ordered sequence of criteria
    plus a combination mode. *)
Record Query : Type := mkQuery {
  criteria : list Criterion;
  mode : Mode
}.

(** Modelled from the spec: [matchAll] stops at the first failing
    criterion. *)
Fixpoint match_all (cs : list Criterion) (f : File) (g : TagGraph) : Result bool :=
  match cs with
  | [] => Ok true
  | c :: cs' =>
      match evaluate c f g with
      | Ok true => match_all cs' f g
      | r => r
      end
  end.

(** Modelled from the spec: [matchAny] stops at the first succeeding
    criterion. *)
Fixpoint match_any (cs : list Criterion) (f : File) (g : TagGraph) : Result bool :=
  match cs with
  | [] => Ok false
  | c :: cs' =>
      match evaluate c f g with
      | Ok false => match_any cs' f g
      | r => r
      end
  end.

(** Modelled from the spec: [matches(file, tagGraph)]. *)
Definition matches (q : Query) (f : File) (g : TagGraph) : Result bool :=
  match mode q with
  | matchAll => match_all (criteria q) f g
  | matchAny => match_any (criteria q) f g
  end.

End Core.

(** ** Arrays and item indices *)

Module JsArray.

(** The position a [slice] argument denotes in an array of [len] elements:
    a negative argument counts from the end, and the result stays within
    the array. *)
Definition relative_index (len k : Z) : Z :=
  if k <? 0 then Z.max (len + k) 0 else Z.min k len.

(** [Array.prototype.slice(start, end)]. *)
Definition Array_slice {A : Type} (l : list A) (start stop : Z) : list A :=
  let len := Z.of_nat (length l) in
  let k := relative_index len start in
  let final := relative_index len stop in
  take (Z.to_nat (final - k)) (drop (Z.to_nat k) l).

(** [a[i]] for an integral index: [undefined] outside the array. *)
Definition at_index {A : Type} (l : list A) (i : Z) : option A :=
  if i <? 0 then None else l !! Z.to_nat i.

End JsArray.

(** ** The gallery's item indices *)

(** Item indices, list lengths and column counts are integral numbers far
    below [2^53], where the arithmetic and the comparisons of JavaScript
    numbers are exact; here they are integers. On such numbers
    [Math.floor(i / n)] and [Math.ceil(len / n)] are the floor and the
    ceiling of the exact quotient. *)

Module GalleryIndex.

Import JsArray.

Inductive Key : Type :=
  | ArrowLeft | ArrowRight | ArrowUp | ArrowDown | OtherKey.

#[global] Instance Key_eq_dec : EqDecision Key.
Proof. solve_decision. Defined.

(** [onKeyDown] of [Layout]: the index of the file it hands to
    [handleFileSelect], or [None] when it returns without selecting. *)
Definition layout_onKeyDown (lastSelectionIndex : option Z) (length : Z)
    (key : Key) : option Z :=
  match lastSelectionIndex with
  | None => None
  | Some index =>
      if bool_decide (key = ArrowLeft) && (0 <? index) then Some (index - 1)
      else if bool_decide (key = ArrowRight) && (index <? length - 1)
      then Some (index + 1)
      else None
  end.

(** [onKeyDown] of [GridGallery]: the index of the file it hands to
    [select], or [None] when it returns without selecting. *)
Definition grid_onKeyDown (lastSelectionIndex : option Z)
    (length numColumns : Z) (key : Key) : option Z :=
  match lastSelectionIndex with
  | None => None
  | Some index =>
      if bool_decide (key = ArrowUp) && (numColumns <=? index)
      then Some (index - numColumns)
      else if bool_decide (key = ArrowDown)
              && (index <? length - 1)
              && (index <? length + numColumns - 1)
      then Some (Z.min (index + numColumns) (length - 1))
      else None
  end.

(** [numRows] of [GridGallery]. *)
Definition numRows (length numColumns : Z) : Z :=
  if 0 <? numColumns then - ((- length) / numColumns) else 0.

(** The row [handleScrollTo] of [GridGallery] scrolls to, for a positive
    number of columns. *)
Definition scroll_row (i numColumns : Z) : Z := i / numColumns.

(** [GridRow]: the [aria-rowindex] of row [index]. *)
Definition aria_rowindex (index : Z) : Z := index + 1.

(** [GridRow]: the cells of row [index], each file with the [colIndex] its
    [GridCell] is given. *)
Definition GridRow_cells {File : Type} (data : list File) (index columns : Z)
    : list (Z * File) :=
  let offset := index * columns in
  imap (fun i file => (Z.of_nat i + 1, file))
    (Array_slice data offset (offset + columns)).

(** [getGridItemIndex], on an event whose target [matches] or not, with
    the numbers [parseInt] reads from the [aria-rowindex] of the closest
    row and the [aria-colindex] of the closest grid cell. *)
Definition getGridItemIndex (matches : bool) (rowIndex colIndex numColumns : Z)
    : option Z :=
  if matches then
    let offset := (rowIndex - 1) * numColumns in
    Some (offset + colIndex - 1)
  else None.

(** The intersection observer of [GridGallery]: the index it hands to
    [setFirstItem] for a row, from the number [parseInt] reads from the
    row's [aria-rowindex] and the row's [childElementCount]. *)
Definition observed_firstItem (rowIndexAttr childElementCount : Z) : Z :=
  let rowIndex := rowIndexAttr - 1 in
  rowIndex * childElementCount.

(** [getListItemIndex], likewise. *)
Definition getListItemIndex (matches : bool) (rowIndex : Z) : option Z :=
  if matches then Some (rowIndex - 1) else None.

(** [decrImgIndex] and [incrImgIndex] of [SlideGallery]: the index they
    hand to [setFirstItem]. *)
Definition decrImgIndex (firstItem : Z) : Z := Z.max 0 (firstItem - 1).

Definition incrImgIndex (firstItem length : Z) : Z :=
  Z.min (firstItem + 1) (length - 1).

(** What [SlideGallery] renders: the notice that no files are available,
    or the file at [firstItem], which is [undefined] outside the list. *)
Inductive Slide (File : Type) : Type :=
  | NoFilesAvailable
  | ShowFile (file : option File).
Arguments NoFilesAvailable {File}.
Arguments ShowFile {File} file.

(** The render function of [SlideGallery], up to the file it reads from the
    list; its effects and the read of an [undefined] file are in [preload]
    and [SlideGallery] below. *)
Definition SlideGallery_render {File : Type} (fileList : list File)
    (firstItem : Z) : Slide File :=
  if Z.of_nat (length fileList) <=? firstItem then NoFilesAvailable
  else ShowFile (at_index fileList firstItem).

(** The effect of [SlideGallery] that preloads the next and the previous
    image: the files whose [absolutePath] it reads, in order, or [None]
    when it reads the property of [undefined], which throws a
    [TypeError]. *)
Definition preload {File : Type} (fileList : list File) (firstItem : Z)
    : option (list File) :=
  nextImg ←
    (if firstItem + 1 <? Z.of_nat (length fileList)
     then file ← at_index fileList (firstItem + 1); Some [file]
     else Some []);
  prevImg ←
    (if 0 <=? firstItem - 1
     then file ← at_index fileList (firstItem - 1); Some [file]
     else Some []);
  Some (nextImg ++ prevImg)%list.

(** One render and commit of [SlideGallery] at a value of [firstItem]:
    what is displayed, with the files the preload effect has read, or the
    [TypeError] thrown on the way. The render function throws when it reads
    [isBroken] of an [undefined] file, and then no effect runs; otherwise
    the effects run after it, and the preload effect is the one that reads
    a property of a list element. The effect that selects the active image
    hands [fileList[firstItem]] to the store when [firstItem] is below the
    length; it reads no property of the element and is not part of the
    outcome. *)
Inductive Commit (File : Type) : Type :=
  | Displays (slide : Slide File) (preloaded : list File)
  | TypeError.
Arguments Displays {File} slide preloaded.
Arguments TypeError {File}.

Definition SlideGallery {File : Type} (fileList : list File)
    (firstItem : Z) : Commit File :=
  match SlideGallery_render fileList firstItem with
  | ShowFile None => TypeError
  | slide =>
      match preload fileList firstItem with
      | Some preloaded => Displays slide preloaded
      | None => TypeError
      end
  end.

End GalleryIndex.

(** ** The inspector's carousel and header *)

Module Carousel.

Import JsArray.

(** NOTE: maxItems is coupled to the CSS. *)
Definition maxItems : Z := 7.

(** [clamp] of the Blueprint utilities: an error ([None]) when the bounds
    are out of order, else the value brought within them. *)
Definition clamp (val min max : Z) : option Z :=
  if max <? min then None else Some (Z.min (Z.max val min) max).

Section Carousel.

Context {ClientFile : Type}.

(** [paddedItems]: [maxItems - 1] entries that are [undefined], then the
    items. *)
Definition paddedItems (items : list ClientFile) : list (option ClientFile) :=
  replicate (Z.to_nat (maxItems - 1)) None ++ (Some <$> items).

(** The scroll index set when the items are padded. *)
Definition initial_scrollIndex (items : list ClientFile) : Z :=
  Z.of_nat (length items) - 1.

(** [handleWheel]: the new scroll index for the old one, [v]. *)
Definition handleWheel (items : list ClientFile) (deltaY : Number.number)
    (v : Z) : option Z :=
  let delta := if Number.ltb (Number.of_Z 0) deltaY then -1 else 1 in
  clamp (v + delta) 0 (Z.of_nat (length (paddedItems items)) - 1).

(** The stack that is rendered: the entries of the window, of which the
    [undefined] ones show nothing. *)
Definition stack (items : list ClientFile) (scrollIndex : Z)
    : list (option ClientFile) :=
  Array_slice (paddedItems items) scrollIndex (scrollIndex + maxItems).

(** [onClick] of the image at place [index] of the stack: the new scroll
    index. *)
Definition handleClick (scrollIndex index : Z) : Z :=
  scrollIndex - maxItems + 1 + index.

End Carousel.

End Carousel.

Module InspectorHeader.

(** [String.prototype.lastIndexOf(p)]: the last position at which [p]
    occurs in the string, [-1] when it occurs nowhere. [i] is the position
    of the string's first character. *)
Fixpoint lastIndexOf_from (s p : string) (i : Z) : Z :=
  match s with
  | EmptyString => if String.prefix p EmptyString then i else -1
  | String _ s' =>
      let later := lastIndexOf_from s' p (i + 1) in
      if later =? -1 then (if String.prefix p s then i else -1) else later
  end.

Definition lastIndexOf (s p : string) : Z := lastIndexOf_from s p 0.

Fixpoint drop_string (n : nat) (s : string) : string :=
  match n, s with
  | O, _ => s
  | S n', String _ s' => drop_string n' s'
  | S _, EmptyString => EmptyString
  end.

(** [String.prototype.substr(start)]: the string from [start] on, a
    negative [start] counting from the end. *)
Definition substr (s : string) (start : Z) : string :=
  let len := Z.of_nat (String.length s) in
  let k := if start <? 0 then Z.max (len + start) 0 else Z.min start len in
  drop_string (Z.to_nat k) s.

(** Whether a character occurs in a string. *)
Fixpoint occurs (c : ascii) (s : string) : bool :=
  match s with
  | EmptyString => false
  | String d s' => bool_decide (c = d) || occurs c s'
  end.

Section Extension.

(** [String.prototype.toUpperCase], which the engine decides. *)
Variable toUpperCase : string -> string.

(** [ext] of [Inspector], for a single selected file. *)
Definition ext (absolutePath : string) : string :=
  toUpperCase (substr absolutePath (lastIndexOf absolutePath "." + 1)).

End Extension.

End InspectorHeader.

(** ** The order of the counted tags *)

Module FileTagOrder.

Section Order.

Context {ClientTag : Type} `{EqDecision ClientTag}.

(** The elements of a list in the order of their first occurrence. *)
Fixpoint first_occurrences (l : list ClientTag) : list ClientTag :=
  match l with
  | [] => []
  | x :: l' => x :: filter (fun y => y ≠ x) (first_occurrences l')
  end.

(** The tags of the files of a collection, file by file. *)
Definition all_tags (files : list (FileTag.ClientFile ClientTag))
    : list ClientTag :=
  concat (FileTag.tags <$> files).

End Order.

End FileTagOrder.

(** ** The gallery's initial scroll offset *)

Module GalleryScroll.

Import Number.

(** [Math.round]: the nearest integral value, a tie going up; the sign is
    kept on a zero result. *)
Definition Math_round (x : number) : number :=
  match x with
  | S754_finite s m e =>
      if 0 <=? e then x
      else
        let d := Z.shiftl 1 (- e) in
        if s then
          match - ((d - 2 * Z.pos m) / (2 * d)) with
          | Z.pos q => binary_round prec emax true q 0
          | _ => S754_zero true
          end
        else
          match (2 * Z.pos m + d) / (2 * d) with
          | Z.pos q => binary_round prec emax false q 0
          | _ => S754_zero false
          end
  | _ => x
  end.

(** The values that count as false in [a || b]. *)
Definition falsy (x : number) : bool :=
  match x with
  | S754_nan | S754_zero _ => true
  | _ => false
  end.

(** [initialScrollOffset] of the grid's list. *)
Definition initialScrollOffset (firstItem numColumns cellSize : number) : number :=
  let offset := mul (Math_round (div firstItem numColumns)) cellSize in
  if falsy offset then of_Z 0 (* || 0 for initial load *) else offset.

(** The dimensions the grid starts with, before the first layout. *)
Definition initial_dimensions : number * number := (of_Z 0, of_Z 0).

End GalleryScroll.

(** ** The sign of a number *)

Module NumberSign.

Import Number.

(** A number that is NaN or carries the sign [s] ([true] for minus). *)
Definition has_sign (s : bool) (x : number) : Prop :=
  match x with
  | S754_nan => True
  | S754_zero s' | S754_infinity s' | S754_finite s' _ _ => s' = s
  end.

End NumberSign.

(** ** The binary64 values and their rounding *)

Module Binary64.

Import Number.

(** [spec_float] holds a mantissa and an exponent of any size; the
    JavaScript numbers are the values of the binary64 format among them. *)
Definition binary64 (x : number) : Prop := valid_binary prec emax x = true.

(** The round bit a location stands for: set from the half on. *)
Definition round_bit (l : location) : Z :=
  match l with
  | loc_Inexact Eq | loc_Inexact Gt => 1
  | _ => 0
  end.

(** The mantissa of a shift record with its round bit, as one integer. *)
Definition doubled (mrs : shr_record) : Z :=
  2 * shr_m mrs + (if shr_r mrs then 1 else 0).

(** A zero, or a finite number of magnitude below one. *)
Definition below_one (x : number) : Prop :=
  match x with
  | S754_zero _ => True
  | S754_finite _ m e => e < 0 ∧ Z.pos m < 2 ^ (- e)
  | _ => False
  end.

End Binary64.

(* ===================================================================== *)
(** * Part II: properties                                                 *)
(* ===================================================================== *)

(** ** Operator families of the criterion types *)

Section CriterionTypes.

Import SearchCriteria.

Variable FileDTO_keys : list string.

Lemma literal_of_elem (A : list string) (s : string) :
  literal_of A s = true ↔ s ∈ A.
Proof. unfold literal_of. apply bool_decide_eq_true. Qed.

Lemma tag_operators_as_listed (s : string) :
  s ∈ TagOperators ↔ s ∈ spec_tag_operators.
Proof. reflexivity. Qed.

Lemma string_operators_as_listed (s : string) :
  s ∈ StringOperators ↔ s ∈ spec_string_operators.
Proof. reflexivity. Qed.

Lemma number_operators_as_listed (s : string) :
  s ∈ NumberOperators ↔ s ∈ spec_number_operators.
Proof. reflexivity. Qed.

(** The operator tables have one entry per operator of their array. *)
Lemma operator_tables_cover :
  NumberOperatorSymbols.*1 = NumberOperators
  ∧ StringOperatorLabels.*1 = StringOperators.
Proof. split; reflexivity. Qed.

(** Every operator of a family array is an [OperatorType]. *)
Lemma family_operator_is_operator (s : string) :
  s ∈ TagOperators ∨ s ∈ StringOperators ∨ s ∈ NumberOperators →
  OperatorType s = true.
Proof.
  unfold OperatorType, TagOperatorType, StringOperatorType,
    NumberOperatorType, BinaryOperatorType.
  intros [H | [H | H]]; apply literal_of_elem in H; rewrite H;
    rewrite ?orb_true_r; reflexivity.
Qed.

Lemma base_intro (c : Candidate) :
  key c ∈ FileDTO_keys → valueType c ∈ valueTypes →
  OperatorType (operator c) = true →
  IBaseSearchCriteria FileDTO_keys c = true.
Proof.
  intros Hk Hv Ho. unfold IBaseSearchCriteria.
  rewrite Ho, (proj2 (literal_of_elem _ _) Hv), bool_decide_eq_true_2 by done.
  reflexivity.
Qed.

Lemma base_elim (c : Candidate) :
  IBaseSearchCriteria FileDTO_keys c = true →
  key c ∈ FileDTO_keys ∧ valueType c ∈ valueTypes.
Proof.
  unfold IBaseSearchCriteria. intros H.
  apply andb_true_iff in H as [H _]. apply andb_true_iff in H as [Hk Hv].
  split; [by apply bool_decide_eq_true in Hk | by apply literal_of_elem].
Qed.

Lemma tag_criteria_operator (c : Candidate) :
  ITagSearchCriteria FileDTO_keys c = true → operator c ∈ TagOperators.
Proof.
  unfold ITagSearchCriteria. intros H. apply andb_true_iff in H as [_ H].
  by apply literal_of_elem.
Qed.

Lemma string_criteria_operator (c : Candidate) :
  IStringSearchCriteria FileDTO_keys c = true → operator c ∈ StringOperators.
Proof.
  unfold IStringSearchCriteria. intros H. apply andb_true_iff in H as [_ H].
  by apply literal_of_elem.
Qed.

Lemma number_criteria_operator (c : Candidate) :
  INumberSearchCriteria FileDTO_keys c = true → operator c ∈ NumberOperators.
Proof.
  unfold INumberSearchCriteria. intros H. apply andb_true_iff in H as [_ H].
  by apply literal_of_elem.
Qed.

Lemma date_criteria_operator (c : Candidate) :
  IDateSearchCriteria FileDTO_keys c = true → operator c ∈ NumberOperators.
Proof.
  unfold IDateSearchCriteria. intros H. apply andb_true_iff in H as [_ H].
  by apply literal_of_elem.
Qed.

(** A criterion of each family exists for each operator of its array. *)
Lemma tag_criteria_exists (k op : string) :
  k ∈ FileDTO_keys → op ∈ TagOperators →
  ITagSearchCriteria FileDTO_keys (mkCandidate k "array" op (JArray [])) = true.
Proof.
  intros Hk Ho. unfold ITagSearchCriteria, TagOperatorType.
  apply andb_true_iff; split; [apply andb_true_iff; split|];
    [|reflexivity|by apply literal_of_elem].
  apply base_intro; simpl; [done|unfold valueTypes; repeat constructor|].
  apply family_operator_is_operator; auto.
Qed.

Lemma string_criteria_exists (k op : string) :
  k ∈ FileDTO_keys → op ∈ StringOperators →
  IStringSearchCriteria FileDTO_keys (mkCandidate k "string" op (JString "")) = true.
Proof.
  intros Hk Ho. unfold IStringSearchCriteria, StringOperatorType.
  apply andb_true_iff; split; [apply andb_true_iff; split|];
    [|reflexivity|by apply literal_of_elem].
  apply base_intro; simpl; [done|unfold valueTypes; repeat constructor|].
  apply family_operator_is_operator; auto.
Qed.

Lemma number_criteria_exists (k op : string) (x : Number.number) :
  k ∈ FileDTO_keys → op ∈ NumberOperators →
  INumberSearchCriteria FileDTO_keys (mkCandidate k "number" op (JNumber x)) = true.
Proof.
  intros Hk Ho. unfold INumberSearchCriteria, NumberOperatorType.
  apply andb_true_iff; split; [apply andb_true_iff; split|];
    [|reflexivity|by apply literal_of_elem].
  apply base_intro; simpl; [done|unfold valueTypes; repeat constructor|].
  apply family_operator_is_operator; auto.
Qed.

Lemma date_criteria_exists (k op : string) (d : Date) :
  k ∈ FileDTO_keys → op ∈ NumberOperators →
  IDateSearchCriteria FileDTO_keys (mkCandidate k "date" op (JDate d)) = true.
Proof.
  intros Hk Ho. unfold IDateSearchCriteria, NumberOperatorType.
  apply andb_true_iff; split; [apply andb_true_iff; split|];
    [|reflexivity|by apply literal_of_elem].
  apply base_intro; simpl; [done|unfold valueTypes; repeat constructor|].
  apply family_operator_is_operator; auto.
Qed.

(** C1. For each value-type family the legal operators are exactly the
    ones the specification lists: the family's operator array holds the
    listed operators and no others, every criterion of the family has one
    of them as its operator, and each listed operator is the operator of
    some criterion of the family (for any key of [FileDTO]). *)
Theorem operator_sets_exact :
  (∀ s, s ∈ TagOperators ↔ s ∈ spec_tag_operators)
  ∧ (∀ s, s ∈ StringOperators ↔ s ∈ spec_string_operators)
  ∧ (∀ s, s ∈ NumberOperators ↔ s ∈ spec_number_operators)
  ∧ (∀ c, ITagSearchCriteria FileDTO_keys c = true →
          operator c ∈ spec_tag_operators)
  ∧ (∀ c, IStringSearchCriteria FileDTO_keys c = true →
          operator c ∈ spec_string_operators)
  ∧ (∀ c, INumberSearchCriteria FileDTO_keys c = true →
          operator c ∈ spec_number_operators)
  ∧ (∀ k op, k ∈ FileDTO_keys → op ∈ spec_tag_operators →
       ∃ c, ITagSearchCriteria FileDTO_keys c = true ∧ operator c = op)
  ∧ (∀ k op, k ∈ FileDTO_keys → op ∈ spec_string_operators →
       ∃ c, IStringSearchCriteria FileDTO_keys c = true ∧ operator c = op)
  ∧ (∀ k op, k ∈ FileDTO_keys → op ∈ spec_number_operators →
       ∃ c, INumberSearchCriteria FileDTO_keys c = true ∧ operator c = op).
Proof.
  repeat split.
  - by intros ?%tag_operators_as_listed.
  - by intros ?%tag_operators_as_listed.
  - by intros ?%string_operators_as_listed.
  - by intros ?%string_operators_as_listed.
  - by intros ?%number_operators_as_listed.
  - by intros ?%number_operators_as_listed.
  - intros c H. apply tag_operators_as_listed. by apply tag_criteria_operator.
  - intros c H. apply string_operators_as_listed.
    by apply string_criteria_operator.
  - intros c H. apply number_operators_as_listed.
    by apply number_criteria_operator.
  - intros k op Hk Ho. eexists. split; [by apply tag_criteria_exists|done].
  - intros k op Hk Ho. eexists. split; [by apply string_criteria_exists|done].
  - intros k op Hk Ho. exists (mkCandidate k "number" op (JNumber (Number.of_Z 0))).
    split; [by apply number_criteria_exists|done].
Qed.

(** *** What the declared types accept *)

Lemma shape_tag (v : JsValue) :
  is_ID_array v = true → operators_for_operand v = TagOperators.
Proof. unfold operators_for_operand. by intros ->. Qed.

Lemma shape_string (v : JsValue) :
  is_string v = true → operators_for_operand v = StringOperators.
Proof. by destruct v. Qed.

Lemma shape_number (v : JsValue) :
  is_number v = true → operators_for_operand v = NumberOperators.
Proof. by destruct v. Qed.

Lemma shape_date (v : JsValue) :
  is_Date v = true → operators_for_operand v = NumberOperators.
Proof. by destruct v. Qed.

(** The union type, case by case, with the interface predicates spelled
    as conjunctions. *)
Lemma search_criteria_cases (c : Candidate) :
  SearchCriteria FileDTO_keys c = true ↔
  IBaseSearchCriteria FileDTO_keys c = true ∧
  ((is_ID_array (value c) = true ∧ operator c ∈ TagOperators)
   ∨ (is_string (value c) = true ∧ operator c ∈ StringOperators)
   ∨ (is_number (value c) = true ∧ operator c ∈ NumberOperators)
   ∨ (is_Date (value c) = true ∧ operator c ∈ NumberOperators)).
Proof.
  unfold SearchCriteria, ITagSearchCriteria, IStringSearchCriteria,
    INumberSearchCriteria, IDateSearchCriteria, TagOperatorType,
    StringOperatorType, NumberOperatorType.
  rewrite !orb_true_iff, !andb_true_iff, !literal_of_elem. tauto.
Qed.

(** C2, as the code has it. The declared types accept a candidate exactly
    when its key is a key of [FileDTO], its [valueType] is one of the four
    literals, and its operator belongs to the operator array selected by
    the shape of its operand (an array of ids, a string, a number or a
    [Date]); a candidate whose operator fits no family of its operand's
    shape is not a [SearchCriteria]. The [valueType] is not tied to the
    operand or the operator. *)
Theorem criterion_typed_by_operand (c : Candidate) :
  SearchCriteria FileDTO_keys c = true ↔
  key c ∈ FileDTO_keys ∧ valueType c ∈ valueTypes
  ∧ operator c ∈ operators_for_operand (value c).
Proof.
  rewrite search_criteria_cases. split.
  - intros [Hb Hc]. destruct (base_elim c Hb) as [Hk Hv].
    split; [done|split; [done|]].
    destruct Hc as [[Hs Ho] | [[Hs Ho] | [[Hs Ho] | [Hs Ho]]]].
    + by rewrite shape_tag.
    + by rewrite shape_string.
    + by rewrite shape_number.
    + by rewrite shape_date.
  - intros (Hk & Hv & Ho).
    assert (Hop : OperatorType (operator c) = true).
    { apply family_operator_is_operator. revert Ho. unfold operators_for_operand.
      destruct (is_ID_array (value c)); [tauto|].
      destruct (is_string (value c)); [tauto|].
      destruct (is_number (value c) || is_Date (value c)); [tauto|].
      by intros ?%elem_of_nil. }
    split; [by apply base_intro|].
    revert Ho. unfold operators_for_operand.
    destruct (is_ID_array (value c)) eqn:Ha; [tauto|].
    destruct (is_string (value c)) eqn:Hs; [tauto|].
    destruct (is_number (value c)) eqn:Hn; [simpl; tauto|].
    destruct (is_Date (value c)) eqn:Hd; [simpl; tauto|].
    by intros ?%elem_of_nil.
Qed.

(** C2, as stated, fails: the declared types accept a criterion whose
    operator and operand are those of the tag family while its [valueType]
    names the number family. *)
Lemma mismatched_criterion_accepted :
  ¬ (∀ (keys : list string) (c : Candidate),
       SearchCriteria keys c = true →
       operator c ∈ spec_family_operators (valueType c)
       ∧ spec_family_operand (valueType c) (value c) = true).
Proof.
  intros H.
  destruct (H ["tags"]
              (mkCandidate "tags" "number" "containsRecursively"
                 (JArray [JString "t1"])) eq_refl) as [_ Hshape].
  discriminate Hshape.
Qed.

(** *** Which properties can be assigned *)




(** *** Date criteria *)

(** C3. A date criterion carries a single [Date] operand, and its operator
    is drawn from exactly the operator set of the number family: the date
    interface accepts an operator exactly when the number interface does.
    The evaluator compares a date with the operand as integer timestamps,
    under the total order of the integers. *)
Theorem date_criterion_operators_and_order :
  (∀ c, IDateSearchCriteria FileDTO_keys c = true →
        (∃ d, value c = JDate d) ∧ operator c ∈ spec_number_operators)
  ∧ (∀ k op d, k ∈ FileDTO_keys → op ∈ spec_number_operators →
       IDateSearchCriteria FileDTO_keys (mkCandidate k "date" op (JDate d)) = true)
  ∧ (∀ k vt op d x,
       IDateSearchCriteria FileDTO_keys (mkCandidate k vt op (JDate d))
       = INumberSearchCriteria FileDTO_keys (mkCandidate k vt op (JNumber x)))
  ∧ (∀ f g k op operand v,
       Core.field f k = Some (Core.FDate v) →
       Core.evaluate (Core.DateCriterion k op operand) f g
       = Core.Ok (Core.eval_date op v operand))
  ∧ (∀ v o : Date,
       (Core.eval_date Core.NumberOp.equals v o = true ↔ v = o)
       ∧ (Core.eval_date Core.NumberOp.notEqual v o = true ↔ v ≠ o)
       ∧ (Core.eval_date Core.NumberOp.smallerThan v o = true ↔ (v < o)%Z)
       ∧ (Core.eval_date Core.NumberOp.smallerThanOrEquals v o = true ↔ (v ≤ o)%Z)
       ∧ (Core.eval_date Core.NumberOp.greaterThan v o = true ↔ (o < v)%Z)
       ∧ (Core.eval_date Core.NumberOp.greaterThanOrEquals v o = true ↔ (o ≤ v)%Z))
  ∧ (∀ v o : Date, (v < o)%Z ∨ v = o ∨ (o < v)%Z).
Proof.
  split; [|split; [|split; [|split; [|split]]]].
  - intros c H. split; [|by apply date_criteria_operator].
    unfold IDateSearchCriteria in H. apply andb_true_iff in H as [H _].
    apply andb_true_iff in H as [_ H]. destruct (value c); try done. eauto.
  - intros k op d Hk Ho. by apply date_criteria_exists.
  - reflexivity.
  - intros f g k op operand v Hv. simpl. by rewrite Hv.
  - intros v o. simpl.
    split; [apply Z.eqb_eq|].
    split; [rewrite negb_true_iff; apply Z.eqb_neq|].
    split; [apply Z.ltb_lt|].
    split; [apply Z.leb_le|].
    split; [apply Z.ltb_lt|apply Z.leb_le].
  - intros v o. lia.
Qed.

End CriterionTypes.

(** ** Counting tags *)

Section CountFileTagsFacts.

Import FileTag.

Context {ClientTag : Type} `{EqDecision ClientTag}.

Implicit Types (m counter : Map ClientTag) (t k : ClientTag).
Implicit Types (files : list (ClientFile ClientTag)).

(** *** The insertion-ordered map *)

Lemma Map_get_set m k v k' :
  Map_get (Map_set m k v) k' = if decide (k' = k) then Some v else Map_get m k'.
Proof.
  induction m as [|[k0 v0] m IH]; simpl.
  - by destruct (decide (k' = k)).
  - destruct (decide (k = k0)) as [->|Hne]; simpl.
    + by destruct (decide (k' = k0)).
    + destruct (decide (k' = k0)) as [->|]; [|apply IH].
      by rewrite decide_False by done.
Qed.

Lemma Map_set_keys m k v :
  (Map_set m k v).*1 =
  if decide (k ∈ m.*1) then m.*1 else m.*1 ++ [k].
Proof.
  induction m as [|[k0 v0] m IH].
  - cbn [Map_set fmap list_fmap fst]. destruct (decide (k ∈ [])) as [Hin|]; [|done].
    by apply elem_of_nil in Hin.
  - cbn [Map_set fmap list_fmap fst]. destruct (decide (k = k0)) as [->|Hne].
    + cbn [fmap list_fmap fst]. destruct (decide (k0 ∈ k0 :: m.*1)) as [|Hn]; [done|].
      exfalso. apply Hn, list_elem_of_here.
    + cbn [fmap list_fmap fst]. rewrite IH.
      destruct (decide (k ∈ m.*1)) as [Hin|Hin];
        destruct (decide (k ∈ k0 :: m.*1)) as [Hin'|Hin']; try done.
      * exfalso. apply Hin'. by apply list_elem_of_further.
      * exfalso. apply elem_of_cons in Hin' as [?|?]; done.
Qed.

Lemma Map_set_NoDup m k v :
  NoDup (m.*1) → NoDup ((Map_set m k v).*1).
Proof.
  intros Hm. rewrite Map_set_keys. destruct (decide (k ∈ m.*1)); [done|].
  apply NoDup_app. split; [done|]. split; [|apply NoDup_singleton].
  intros x Hx ->%list_elem_of_singleton. done.
Qed.

Lemma Map_get_None m k : Map_get m k = None ↔ k ∉ m.*1.
Proof.
  induction m as [|[k0 v0] m IH]; simpl.
  - split; [intros _; apply not_elem_of_nil|done].
  - rewrite not_elem_of_cons. destruct (decide (k = k0)); [|tauto].
    split; [done|tauto].
Qed.

Lemma Map_get_entry m k v :
  NoDup (m.*1) → (k, v) ∈ m → Map_get m k = Some v.
Proof.
  induction m as [|[k0 v0] m IH]; simpl; intros Hnd Hin.
  - by apply elem_of_nil in Hin.
  - apply NoDup_cons in Hnd as [Hk0 Hnd].
    apply elem_of_cons in Hin as [Heq|Hin].
    + injection Heq as -> ->. by rewrite decide_True.
    + destruct (decide (k = k0)) as [->|]; [|by apply IH].
      exfalso. apply Hk0. apply list_elem_of_fmap. by exists (k0, v).
Qed.

(** *** The counting loops *)

Lemma count_of_count_tag m t t' :
  count_of (count_tag m t) t' = count_of m t' + (if decide (t' = t) then 1 else 0).
Proof.
  unfold count_of, count_tag. rewrite Map_get_set.
  destruct (decide (t' = t)) as [->|]; [|lia].
  destruct (Map_get m t); simpl; lia.
Qed.

Lemma positive_count_tag m t : positive m → positive (count_tag m t).
Proof.
  intros Hm t' n. unfold count_tag. rewrite Map_get_set.
  destruct (decide (t' = t)) as [->|]; [|apply Hm].
  destruct (Map_get m t) as [c|] eqn:Hc; intros [= <-]; [|lia].
  specialize (Hm t c Hc). lia.
Qed.

Lemma occurrences_cons t u ts :
  occurrences t (u :: ts) = (if decide (t = u) then 1 else 0) + occurrences t ts.
Proof.
  unfold occurrences. rewrite filter_cons.
  destruct (decide (t = u)); simpl length; lia.
Qed.

Lemma occurrences_nonneg t ts : 0 ≤ occurrences t ts.
Proof. unfold occurrences. lia. Qed.

Lemma occurrences_NoDup t ts :
  NoDup ts → occurrences t ts = if decide (t ∈ ts) then 1 else 0.
Proof.
  induction ts as [|u ts IH]; intros Hnd.
  - rewrite decide_False; [done|apply not_elem_of_nil].
  - apply NoDup_cons in Hnd as [Hu Hnd]. rewrite occurrences_cons, IH by done.
    destruct (decide (t = u)) as [->|Hne].
    + rewrite decide_False by done. rewrite decide_True; [done|].
      apply list_elem_of_here.
    + destruct (decide (t ∈ ts)) as [Hin|Hin].
      * rewrite decide_True; [done|by apply list_elem_of_further].
      * rewrite decide_False; [done|]. rewrite elem_of_cons. tauto.
Qed.

(** The inner loop, over the tags of one file. *)
Lemma count_of_tags ts m t' :
  count_of (foldl count_tag m ts) t' = count_of m t' + occurrences t' ts.
Proof.
  revert m. induction ts as [|t ts IH]; intros m; simpl foldl.
  - unfold occurrences. simpl. lia.
  - rewrite IH, count_of_count_tag, occurrences_cons. lia.
Qed.

Lemma positive_tags ts m : positive m → positive (foldl count_tag m ts).
Proof.
  revert m. induction ts as [|t ts IH]; intros m Hm; simpl foldl; [done|].
  by apply IH, positive_count_tag.
Qed.

Lemma NoDup_tags ts m : NoDup m.*1 → NoDup (foldl count_tag m ts).*1.
Proof.
  revert m. induction ts as [|t ts IH]; intros m Hm; simpl foldl; [done|].
  by apply IH, Map_set_NoDup.
Qed.

(** The outer loop, over the files. *)
Lemma count_of_files files m t :
  count_of (foldl (fun counter file => foldl count_tag counter (tags file)) m files) t
  = count_of m t + total_occurrences t files.
Proof.
  revert m. induction files as [|f files IH]; intros m; simpl.
  - lia.
  - rewrite IH, count_of_tags. lia.
Qed.

Lemma positive_files files m :
  positive m →
  positive (foldl (fun counter file => foldl count_tag counter (tags file)) m files).
Proof.
  revert m. induction files as [|f files IH]; intros m Hm; simpl; [done|].
  by apply IH, positive_tags.
Qed.

Lemma NoDup_files files m :
  NoDup m.*1 →
  NoDup (foldl (fun counter file => foldl count_tag counter (tags file)) m files).*1.
Proof.
  revert m. induction files as [|f files IH]; intros m Hm; simpl; [done|].
  by apply IH, NoDup_tags.
Qed.

(** When no file lists a tag twice, the occurrences of a tag are the files
    that carry it. *)
Lemma total_occurrences_files_with t files :
  Forall (fun f => NoDup (tags f)) files →
  total_occurrences t files = files_with t files.
Proof.
  unfold files_with. induction 1 as [|f files Hf _ IH]; [done|].
  change (total_occurrences t (f :: files))
    with (occurrences t (tags f) + total_occurrences t files).
  rewrite IH, occurrences_NoDup, filter_cons by done.
  destruct (decide (t ∈ tags f)); simpl length; lia.
Qed.

(** *** The sort *)

Lemma insert_by_perm {A} (cmp : A → A → Z) (x : A) (l : list A) :
  insert_by cmp x l ≡ₚ x :: l.
Proof.
  induction l as [|y l IH]; simpl; [done|].
  destruct (0 <? cmp x y); [|done].
  rewrite IH. apply Permutation_swap.
Qed.

Lemma Array_sort_perm {A} (cmp : A → A → Z) (l : list A) :
  Array_sort cmp l ≡ₚ l.
Proof.
  unfold Array_sort. induction l as [|x l IH]; simpl; [done|].
  by rewrite insert_by_perm, IH.
Qed.

Lemma insert_by_count_sorted (x : ClientTag * Z) (l : list (ClientTag * Z)) :
  StronglySorted by_count l →
  StronglySorted by_count (insert_by (fun a b => b.2 - a.2) x l).
Proof.
  induction 1 as [|y l Hl IH Hy]; simpl.
  - repeat constructor.
  - destruct (0 <? y.2 - x.2) eqn:Hcmp.
    + apply Z.ltb_lt in Hcmp. constructor; [done|].
      rewrite insert_by_perm. constructor; [|done]. unfold by_count. lia.
    + apply Z.ltb_ge in Hcmp. constructor; [by constructor|].
      constructor; [unfold by_count; lia|].
      eapply Forall_impl; [exact Hy|]. unfold by_count. intros z Hz. lia.
Qed.

Lemma Array_sort_count_sorted (l : list (ClientTag * Z)) :
  StronglySorted by_count (Array_sort (fun a b => b.2 - a.2) l).
Proof.
  unfold Array_sort. induction l as [|x l IH]; simpl; [constructor|].
  by apply insert_by_count_sorted.
Qed.

Lemma StronglySorted_lookup_lt {A} (R : A → A → Prop) (l : list A) i j a b :
  StronglySorted R l → (i < j)%nat → l !! i = Some a → l !! j = Some b → R a b.
Proof.
  intros Hl. revert i j. induction Hl as [|x l Hl IH Hx]; intros i j Hij Hi Hj.
  - by rewrite lookup_nil in Hi.
  - destruct j as [|j]; [lia|]. simpl in Hj. destruct i as [|i]; simpl in Hi.
    + injection Hi as ->. rewrite Forall_forall in Hx.
      by eapply Hx, list_elem_of_lookup_2.
    + apply (IH i j); [lia|done..].
Qed.

(** C8. For every collection of files (none listing a tag twice, as their
    tags form a set), the counter of [countFileTags] maps a tag [t] to [n]
    exactly when [n ≥ 1] files of the collection carry [t], so tags of no
    file are absent; it has one entry per tag; and [sortedTags] holds
    exactly the counter's tags, in non-increasing order of their counts. *)
Theorem countFileTags_spec files :
  Forall (fun f => NoDup (tags f)) files →
  (∀ t n, Map_get (countFileTags files).1 t = Some n ↔
          1 ≤ n ∧ n = files_with t files)
  ∧ NoDup (countFileTags files).1.*1
  ∧ (countFileTags files).2 ≡ₚ (countFileTags files).1.*1
  ∧ (∀ i j t u,
       (i < j)%nat →
       (countFileTags files).2 !! i = Some t →
       (countFileTags files).2 !! j = Some u →
       count_of (countFileTags files).1 u ≤ count_of (countFileTags files).1 t).
Proof.
  intros Hfiles. unfold countFileTags. cbn [fst snd].
  set (counter := foldl _ _ files).
  assert (Hcount : ∀ t, count_of counter t = files_with t files).
  { intros t. unfold counter. rewrite count_of_files.
    rewrite total_occurrences_files_with by done. done. }
  assert (Hpos : positive counter).
  { apply positive_files. intros t n. discriminate. }
  assert (Hnd : NoDup counter.*1).
  { apply NoDup_files. simpl. apply NoDup_nil. done. }
  split; [|split; [done|split]].
  - intros t n. split.
    + intros Hget. specialize (Hcount t). unfold count_of in Hcount.
      rewrite Hget in Hcount. simpl in Hcount. specialize (Hpos t n Hget). lia.
    + intros [Hn ->]. specialize (Hcount t). unfold count_of in Hcount.
      destruct (Map_get counter t) as [c|]; simpl in Hcount; [by subst|lia].
  - by rewrite Array_sort_perm.
  - intros i j t u Hij Hi Hj.
    apply list_lookup_fmap_Some in Hi as ([t' n] & -> & Hi).
    apply list_lookup_fmap_Some in Hj as ([u' k] & -> & Hj).
    assert (Hin : ∀ e, e ∈ Array_sort (fun a b => b.2 - a.2) counter →
                       count_of counter e.1 = e.2).
    { intros [e c] He. rewrite Array_sort_perm in He. unfold count_of.
      cbn [fst snd].
      by rewrite (Map_get_entry counter e c). }
    pose proof (Hin _ (list_elem_of_lookup_2 _ _ _ Hi)) as Ht.
    pose proof (Hin _ (list_elem_of_lookup_2 _ _ _ Hj)) as Hu.
    cbn [fst snd] in Ht, Hu |- *. rewrite Ht, Hu.
    exact (StronglySorted_lookup_lt by_count _ i j _ _
             (Array_sort_count_sorted counter) Hij Hi Hj).
Qed.

End CountFileTagsFacts.

Lemma countFileTags_spec_witness :
  let files :=
    [ FileTag.mkClientFile ["a"; "b"]%string;
      FileTag.mkClientFile ["b"; "c"]%string;
      FileTag.mkClientFile ["c"; "b"; "d"]%string ] in
  Forall (fun f => NoDup (FileTag.tags f)) files
  ∧ FileTag.countFileTags files
    = ([("a", 1); ("b", 3); ("c", 2); ("d", 1)]%string,
       ["b"; "c"; "a"; "d"]%string)
  ∧ ∀ t n, FileTag.Map_get (FileTag.countFileTags files).1 t = Some n ↔
           1 ≤ n ∧ n = FileTag.files_with t files.
Proof.
  intros files.
  assert (Hfiles : Forall (fun f => NoDup (FileTag.tags f)) files).
  { apply (bool_decide_unpack _). vm_compute. exact I. }
  split; [exact Hfiles|]. split; [vm_compute; reflexivity|].
  exact (proj1 (countFileTags_spec files Hfiles)).
Defined.

(** ** Comparing numbers *)

Section NumberFacts.

Import Number.

Lemma SFcompare_refl (x : number) :
  isNaN x = false → SFcompare x x = Some Eq.
Proof.
  destruct x as [s|s| |s m e]; simpl; try done.
  - by destruct s.
  - intros _. rewrite Z.compare_refl, Pos.compare_cont_refl. by destruct s.
Qed.

Lemma SFcompare_swap (x y : number) :
  SFcompare y x = CompOpp <$> SFcompare x y.
Proof.
  destruct x as [sx|sx| |sx mx ex], y as [sy|sy| |sy my ey]; simpl;
    try done; try (by destruct sx); try (by destruct sy);
    try (by destruct sx, sy).
  rewrite (Z.compare_antisym ex ey), !Pos.compare_cont_spec.
  rewrite (Pos.compare_antisym mx my). simpl.
  destruct sx, sy; simpl; try done;
    destruct (ex ?= ey); simpl; try done;
    destruct (mx ?= my)%positive; done.
Qed.

Lemma leb_refl (x : number) : isNaN x = false → leb x x = true.
Proof. intros H. unfold leb, SFleb. by rewrite SFcompare_refl. Qed.

(** An order that holds one way does not hold strictly the other way. *)
Lemma leb_not_gtb (x y : number) : leb x y = true → ltb y x = false.
Proof.
  unfold leb, ltb, SFleb, SFltb. rewrite (SFcompare_swap x y).
  by destruct (SFcompare x y) as [[]|].
Qed.

(** Two numbers, neither NaN, are ordered one way or the other. *)
Lemma not_ltb_leb (x y : number) :
  isNaN x = false → isNaN y = false → ltb y x = false → leb x y = true.
Proof.
  unfold leb, ltb, SFleb, SFltb. rewrite (SFcompare_swap x y). intros Hx Hy.
  destruct (SFcompare x y) as [[]|] eqn:Hc; simpl; try done.
  destruct x, y; try done; by destruct s.
Qed.

Lemma isFinite_not_NaN (x : number) : isFinite x = true → isNaN x = false.
Proof. by destruct x. Qed.

End NumberFacts.

(** ** Quotients below one *)

(** The quotient of two binary64 values [0 < x < y] lies below the midpoint
    of [1] and its predecessor, so it rounds to a value below one, of which
    [Math.trunc] leaves a zero. The lemmas follow the division of
    [SpecFloat]: the quotient with its round bit is the doubled quotient of
    the integers, a shift halves it, and rounding to nearest adds at most
    the round bit. *)

Section QuotientBelowOne.

Import Number Gallery Binary64.


Lemma doubled_of_loc m l : doubled (shr_record_of_loc m l) = 2 * m + round_bit l.
Proof. by destruct l as [|[]]. Qed.

Lemma shr_1_doubled mrs :
  0 ≤ shr_m mrs →
  0 ≤ shr_m (shr_1 mrs) ∧ doubled (shr_1 mrs) = doubled mrs / 2.
Proof.
  destruct mrs as [m r s]. unfold doubled. cbn [shr_m shr_r]. intros Hm.
  assert (Hhalf : ∀ k b : Z, 0 ≤ b < 2 → (2 * k + b) / 2 = k).
  { intros k b Hb. symmetry. apply (Z.div_unique _ _ _ b); lia. }
  destruct m as [|[p|p|]|p]; try lia; cbn [shr_1 shr_m shr_r orb];
    (split; [lia|]).
  - by destruct r; rewrite Hhalf by lia.
  - rewrite (Pos2Z.inj_xI p).
    replace (2 * (2 * Z.pos p + 1) + (if r then 1 else 0))
      with (2 * (2 * Z.pos p + 1 + 0) + (if r then 1 else 0)) by lia.
    destruct r; rewrite Hhalf by lia; lia.
  - rewrite (Pos2Z.inj_xO p). destruct r; rewrite Hhalf by lia; lia.
  - destruct r; rewrite Hhalf by lia; lia.
Qed.

Lemma iter_pos_shr_1_doubled p : ∀ mrs,
  0 ≤ shr_m mrs →
  0 ≤ shr_m (SpecFloat.iter_pos shr_1 p mrs)
  ∧ doubled (SpecFloat.iter_pos shr_1 p mrs) = doubled mrs / 2 ^ Z.pos p.
Proof.
  induction p as [p IH|p IH|]; intros mrs Hm; simpl.
  - destruct (shr_1_doubled mrs Hm) as [H1 E1].
    destruct (IH _ H1) as [H2 E2]. destruct (IH _ H2) as [H3 E3].
    split; [done|]. rewrite E3, E2, E1.
    rewrite !Z.div_div by lia. f_equal.
    rewrite (Pos2Z.inj_xI p), <- !Z.pow_add_r, <- Z.pow_succ_r by lia. f_equal. lia.
  - destruct (IH _ Hm) as [H2 E2]. destruct (IH _ H2) as [H3 E3].
    split; [done|]. rewrite E3, E2.
    rewrite !Z.div_div by lia. f_equal.
    rewrite (Pos2Z.inj_xO p), <- !Z.pow_add_r by lia. f_equal. lia.
  - apply (shr_1_doubled mrs Hm).
Qed.

Lemma shr_doubled mrs e n :
  0 ≤ shr_m mrs →
  0 ≤ shr_m (shr mrs e n).1
  ∧ doubled (shr mrs e n).1 = doubled mrs / 2 ^ Z.max 0 n
  ∧ (shr mrs e n).2 = e + Z.max 0 n.
Proof.
  intros Hm. destruct n as [|p|p]; simpl.
  - by rewrite Z.div_1_r, Z.add_0_r.
  - destruct (iter_pos_shr_1_doubled p mrs Hm) as [H E]. done.
  - by rewrite Z.div_1_r, Z.add_0_r.
Qed.


Lemma pow2_succ n : 0 ≤ n → 2 ^ (n + 1) = 2 * 2 ^ n.
Proof. intros H. by rewrite Z.add_1_r, Z.pow_succ_r. Qed.

Lemma digits2_pos_size p : digits2_pos p = Pos.size p.
Proof. induction p; simpl; by f_equal. Qed.

Lemma digits_gt p : Z.pos p < 2 ^ Z.pos (digits2_pos p).
Proof.
  rewrite digits2_pos_size. pose proof (Pos.size_gt p) as H.
  rewrite <- Pos2Z.inj_pow. lia.
Qed.

Lemma digits_le p : 2 ^ Z.pos (digits2_pos p) ≤ 2 * Z.pos p.
Proof.
  rewrite digits2_pos_size. pose proof (Pos.size_le p) as H.
  rewrite <- Pos2Z.inj_pow. lia.
Qed.

Lemma Zdigits2_le m n : 0 ≤ m < 2 ^ n → 0 ≤ n → 0 ≤ Zdigits2 m ≤ n.
Proof.
  intros Hm Hn. destruct m as [|p|p]; simpl; [lia| |lia].
  split; [lia|]. pose proof (digits_le p) as Hle.
  assert (Hlt : 2 ^ Z.pos (digits2_pos p) < 2 ^ (n + 1)).
  { rewrite pow2_succ by lia. lia. }
  apply Z.pow_lt_mono_r_iff in Hlt; lia.
Qed.

Lemma round_nearest_even_bounds mrs :
  shr_m mrs ≤ round_nearest_even (shr_m mrs) (loc_of_shr_record mrs)
  ∧ 2 * round_nearest_even (shr_m mrs) (loc_of_shr_record mrs) ≤ doubled mrs + 1.
Proof.
  destruct mrs as [m [] []]; unfold doubled; simpl; try lia.
  destruct (Z.even m); lia.
Qed.

Lemma shr_fexp_doubled m e l :
  0 ≤ m →
  let k := Z.max 0 (fexp 53 1024 (Zdigits2 m + e) - e) in
  0 ≤ shr_m (shr_fexp 53 1024 m e l).1
  ∧ doubled (shr_fexp 53 1024 m e l).1 = (2 * m + round_bit l) / 2 ^ k
  ∧ (shr_fexp 53 1024 m e l).2 = e + k.
Proof.
  intros Hm k. unfold shr_fexp.
  destruct (shr_doubled (shr_record_of_loc m l) e
              (fexp 53 1024 (Zdigits2 m + e) - e)) as (H1 & H2 & H3).
  { by destruct l as [|[]]. }
  by rewrite doubled_of_loc in H2.
Qed.

Lemma binary_round_aux_below_one s q n l :
  0 ≤ q → 53 ≤ n →
  2 * q + round_bit l < 2 ^ (n + 1) - 2 ^ (n - 53) →
  below_one (binary_round_aux 53 1024 s q (- n) l).
Proof.
  intros Hq Hn Hbound.
  assert (Hl : 0 ≤ round_bit l ≤ 1) by (destruct l as [|[]]; simpl; lia).
  assert (Hp : 0 < 2 ^ (n - 53)) by (apply Z.pow_pos_nonneg; lia).
  assert (Hqn : q < 2 ^ n).
  { rewrite pow2_succ in Hbound by lia. lia. }
  destruct (Zdigits2_le q n) as [Hd0 Hd]; [lia|lia|].
  unfold binary_round_aux.
  destruct (shr_fexp_doubled q (- n) l Hq) as (Hm1 & HD1 & He1).
  destruct (shr_fexp 53 1024 q (- n) l) as [mrs1 e1]. cbn [fst snd] in *.
  set (k1 := Z.max 0 (fexp 53 1024 (Zdigits2 q + - n) - - n)) in *.
  assert (Hk1 : 0 ≤ k1 ≤ n - 53) by (unfold k1, fexp, emin; lia).
  set (a := n - k1).
  assert (HD1' : doubled mrs1 < 2 ^ (a + 1) - 2 ^ (a - 53)).
  { rewrite HD1. apply Z.div_lt_upper_bound; [apply Z.pow_pos_nonneg; lia|].
    rewrite Z.mul_sub_distr_l, <- !Z.pow_add_r by lia.
    replace (k1 + (a + 1)) with (n + 1) by lia.
    replace (k1 + (a - 53)) with (n - 53) by lia. done. }
  destruct (round_nearest_even_bounds mrs1) as [Hr1 Hr2].
  set (m2 := round_nearest_even (shr_m mrs1) (loc_of_shr_record mrs1)) in *.
  assert (Hpa : 0 < 2 ^ (a - 53)) by (apply Z.pow_pos_nonneg; lia).
  assert (Hm2 : 0 ≤ m2 < 2 ^ a).
  { rewrite pow2_succ in HD1' by lia. lia. }
  destruct (Zdigits2_le m2 a) as [Hd20 Hd2]; [lia|lia|].
  destruct (shr_fexp_doubled m2 e1 loc_Exact) as (Hm3 & HD3 & He3); [lia|].
  destruct (shr_fexp 53 1024 m2 e1 loc_Exact) as [mrs3 e3]. cbn [fst snd] in *.
  set (k2 := Z.max 0 (fexp 53 1024 (Zdigits2 m2 + e1) - e1)) in *.
  assert (Hk2 : 0 ≤ k2 ≤ a - 53) by (unfold k2, fexp, emin; lia).
  assert (Hm3' : shr_m mrs3 < 2 ^ (a - k2)).
  { assert (H : doubled mrs3 < 2 ^ (a - k2 + 1)).
    { rewrite HD3. apply Z.div_lt_upper_bound; [apply Z.pow_pos_nonneg; lia|].
      rewrite <- Z.pow_add_r by lia. replace (k2 + (a - k2 + 1)) with (a + 1) by lia.
      rewrite pow2_succ by lia. change (round_bit loc_Exact) with 0. lia. }
    rewrite pow2_succ in H by lia. unfold doubled in H.
    destruct (shr_r mrs3); lia. }
  destruct (shr_m mrs3) as [|m3|m3]; [done| |lia].
  rewrite (proj2 (Z.leb_le e3 (1024 - 53))) by lia.
  simpl. split; [lia|]. by replace (- e3) with (a - k2) by lia.
Qed.

Lemma new_location_round_bit m my :
  0 ≤ m → 0 < my →
  2 * (m / my) + round_bit (new_location my (m mod my)) = (2 * m) / my.
Proof.
  intros Hm Hmy.
  pose proof (Z.div_mod m my) as Hdm.
  pose proof (Z.mod_pos_bound m my Hmy) as Hr.
  set (q := m / my) in *. set (r := m mod my) in *.
  assert (Hbit : round_bit (new_location my r) = if my <=? 2 * r then 1 else 0).
  { unfold new_location, new_location_even, new_location_odd.
    destruct (Z.even my) eqn:Heven.
    - destruct (Z.eqb_spec r 0) as [->|Hr0]; [by rewrite (proj2 (Z.leb_gt _ _))|].
      destruct (Z.compare_spec (2 * r) my), (Z.leb_spec my (2 * r)); simpl; lia.
    - destruct (Z.eqb_spec r 0) as [->|Hr0]; [by rewrite (proj2 (Z.leb_gt _ _))|].
      destruct (Z.compare_spec (2 * r + 1) my), (Z.leb_spec my (2 * r)); simpl;
        lia. }
  rewrite Hbit. destruct (Z.leb_spec my (2 * r)).
  - apply (Z.div_unique _ _ _ (2 * r - my)); lia.
  - apply (Z.div_unique _ _ _ (2 * r)); lia.
Qed.

Lemma SFdiv_core_binary_doubled mx ex my ey :
  let n := - Z.min (fexp 53 1024 (Z.pos (digits2_pos mx) + ex
                                   - (Z.pos (digits2_pos my) + ey))) (ex - ey) in
  ∃ q l,
    SFdiv_core_binary 53 1024 (Z.pos mx) ex (Z.pos my) ey = (q, - n, l)
    ∧ 0 ≤ q
    ∧ 2 * q + round_bit l = (2 * (Z.pos mx * 2 ^ (ex - ey + n))) / Z.pos my.
Proof.
  intros n. unfold SFdiv_core_binary. cbn [Zdigits2].
  set (e' := Z.min _ (ex - ey)). fold e' in n.
  set (s := ex - ey - e').
  assert (Hs : 0 ≤ s) by (unfold s, e'; lia).
  set (m' := match s with Z.pos _ => Z.shiftl (Z.pos mx) s | 0 => Z.pos mx
             | Z.neg _ => 0 end).
  assert (Hm' : m' = Z.pos mx * 2 ^ s).
  { unfold m'. destruct s as [|p|p]; [by rewrite Z.mul_1_r| |lia].
    by rewrite Z.shiftl_mul_pow2. }
  assert (Hm'0 : 0 ≤ m') by (rewrite Hm'; apply Z.mul_nonneg_nonneg; [lia|apply Z.pow_nonneg; lia]).
  pose proof (new_location_round_bit m' (Z.pos my) Hm'0 ltac:(lia)) as Hloc.
  pose proof (Z.div_pos m' (Z.pos my) Hm'0 ltac:(lia)) as Hq.
  unfold Z.div in Hloc, Hq. unfold Z.modulo in Hloc.
  destruct (Z.div_eucl m' (Z.pos my)) as [q r]. cbn [fst snd] in *.
  exists q, (new_location (Z.pos my) r).
  split; [f_equal; f_equal; unfold n; lia|]. split; [done|].
  by rewrite Hloc, Hm'.
Qed.

Lemma canonical_digits m e :
  valid_binary 53 1024 (S754_finite false m e) = true →
  Z.max (Z.pos (digits2_pos m) + e - 53) (-1074) = e.
Proof.
  unfold valid_binary, bounded, canonical_mantissa, fexp, emin.
  intros [H _]%andb_true_iff. by apply Z.eqb_eq in H.
Qed.

Lemma SFltb_finite mx ex my ey :
  SFltb (S754_finite false mx ex) (S754_finite false my ey) = true →
  ex < ey ∨ ex = ey ∧ Z.pos mx < Z.pos my.
Proof.
  unfold SFltb, SFcompare.
  destruct (Z.compare_spec ex ey) as [->| |]; [|by left|done].
  change (Pos.compare_cont Eq mx my) with (mx ?= my)%positive.
  destruct (Pos.compare_spec mx my); try done. right. split; [done|lia].
Qed.

Lemma SFdiv_below_one mx ex my ey :
  valid_binary 53 1024 (S754_finite false mx ex) = true →
  valid_binary 53 1024 (S754_finite false my ey) = true →
  SFltb (S754_finite false mx ex) (S754_finite false my ey) = true →
  below_one (SFdiv 53 1024 (S754_finite false mx ex) (S754_finite false my ey)).
Proof.
  intros Hx%canonical_digits Hy%canonical_digits Hlt%SFltb_finite.
  pose proof (digits_gt mx) as Hgx. pose proof (digits_le mx) as Hlx.
  pose proof (digits_gt my) as Hgy. pose proof (digits_le my) as Hly.
  set (d1 := Z.pos (digits2_pos mx)) in *.
  set (d2 := Z.pos (digits2_pos my)) in *.
  assert (Hd1 : 0 < d1 ≤ 53) by (unfold d1 at 1; lia).
  assert (Hd2 : 0 < d2 ≤ 53) by (unfold d2 at 1; lia).
  assert (Hmx : Z.pos mx < 2 ^ 53).
  { eapply Z.lt_le_trans; [exact Hgx|]. apply Z.pow_le_mono_r; lia. }
  assert (Hmy : Z.pos my < 2 ^ 53).
  { eapply Z.lt_le_trans; [exact Hgy|]. apply Z.pow_le_mono_r; lia. }
  assert (HE : d1 + ex - (d2 + ey) ≤ 0).
  { destruct Hlt as [Hlt|[-> Hlt]]; [lia|].
    assert (H : 2 ^ d1 < 2 ^ (d2 + 1)) by (rewrite pow2_succ by lia; lia).
    apply Z.pow_lt_mono_r_iff in H; lia. }
  unfold SFdiv.
  destruct (SFdiv_core_binary_doubled mx ex my ey) as (q & l & -> & Hq & Hdbl).
  fold d1 d2 in Hdbl |- *.
  set (n := - Z.min (fexp 53 1024 (d1 + ex - (d2 + ey))) (ex - ey)) in *.
  assert (Hn : 53 ≤ n ∧ ey - ex ≤ n) by (unfold n, fexp, emin; lia).
  clearbody n. apply binary_round_aux_below_one; [done|lia|].
  rewrite Hdbl. apply Z.div_lt_upper_bound; [lia|].
  set (P := 2 ^ (n - 53)).
  assert (HP : 0 < P) by (apply Z.pow_pos_nonneg; lia).
  assert (Hn1 : 2 ^ (n + 1) = 2 ^ 54 * P).
  { unfold P. rewrite <- Z.pow_add_r by lia. f_equal. lia. }
  rewrite Hn1.
  destruct Hlt as [Hlt|[-> Hlt]].
  - assert (Hmy' : 2 ^ 52 ≤ Z.pos my).
    { assert (d2 = 53) as Hd by lia. rewrite Hd in Hly.
      change (2 ^ 53) with (2 * 2 ^ 52) in Hly. lia. }
    assert (HW : 2 ^ (ex - ey + n) ≤ 2 ^ 52 * P).
    { unfold P. rewrite <- Z.pow_add_r by lia. apply Z.pow_le_mono_r; lia. }
    assert (H1 : Z.pos mx * 2 ^ (ex - ey + n) ≤ (2 ^ 53 - 1) * (2 ^ 52 * P)).
    { apply Z.mul_le_mono_nonneg; [lia|lia|apply Z.pow_nonneg; lia|done]. }
    assert (H2 : 2 ^ 52 * (P * (2 ^ 54 - 1)) ≤ Z.pos my * (P * (2 ^ 54 - 1))).
    { apply Z.mul_le_mono_nonneg_r; [|done]. apply Z.mul_nonneg_nonneg; lia. }
    lia.
  - replace (ey - ey + n) with n by lia.
    assert (HW : 2 ^ n = 2 ^ 53 * P).
    { unfold P. rewrite <- Z.pow_add_r by lia. f_equal. lia. }
    rewrite HW.
    assert (H1 : (2 ^ 54 * Z.pos mx) * P < (Z.pos my * (2 ^ 54 - 1)) * P).
    { apply Z.mul_lt_mono_pos_r; [done|]. lia. }
    change (2 ^ 54) with (2 * 2 ^ 53) in H1 |- *. lia.
Qed.

(** [Math.trunc] of a value below one is a zero. *)
Lemma Math_trunc_below_one (x : number) :
  below_one x → is_zero (Math_trunc x) = true.
Proof.
  destruct x as [s|s| |s m e]; try done. intros [He Hm].
  unfold Math_trunc. rewrite (proj2 (Z.leb_gt 0 e)) by lia.
  rewrite Z.shiftr_div_pow2 by lia. by rewrite Z.div_small by lia.
Qed.

(** The whole number of times a greater number fits a non-negative one is
    zero. *)
Lemma narrow_quotient_is_zero (x y : number) :
  binary64 x → binary64 y →
  finite x → leb (of_Z 0) x = true → ltb x y = true →
  is_zero (Math_trunc (div x y)) = true.
Proof.
  intros Hx Hy Hfin Hpos Hlt.
  destruct x as [sx|sx| |sx mx ex]; try done.
  - destruct y as [sy|sy| |sy my ey]; try done; by destruct sy.
  - destruct sx; [done|].
    destruct y as [sy|sy| |sy my ey]; try done; destruct sy; try done.
    apply Math_trunc_below_one. by apply SFdiv_below_one.
Qed.

End QuotientBelowOne.

(** ** The column layout *)

Section ColumnLayout.

Import Number Gallery Binary64.

(** After its guard, the cell size is a finite number. *)
Lemma guarded_finite (c minSize : number) :
  finite minSize →
  finite (if isNaN c || negb (isFinite c) then minSize else c).
Proof. unfold finite. by destruct c. Qed.

(** A number at or above a finite one is neither NaN nor [-Infinity]. *)
Lemma above_finite (m M : number) :
  finite m → leb m M = true → isNaN M = false ∧ M ≠ S754_infinity true.
Proof.
  unfold finite. intros Hm Hle. split.
  - destruct M; try done. by destruct m.
  - intros ->. by destruct m as [| | |[] ? ?].
Qed.

Lemma Math_min_finite (c M : number) :
  finite c → isNaN M = false → M ≠ S754_infinity true → finite (Math_min c M).
Proof.
  unfold finite. intros Hc HM Hinf.
  destruct c as [sc|sc| |sc mc ec]; try done;
    destruct M as [sM|sM| |sM mM eM]; try done; simpl;
    try (by destruct sM); try (by destruct sc);
    by match goal with |- context [if ?b then _ else _] => destruct b end.
Qed.

Lemma Math_min_le (c M : number) :
  isNaN c = false → isNaN M = false → leb (Math_min c M) M = true.
Proof.
  intros Hc HM.
  assert (Hgen : leb (if SFltb M c then M else c) M = true).
  { destruct (SFltb M c) eqn:Hlt; [by apply leb_refl|by apply not_ltb_leb]. }
  destruct c as [sc|sc| |sc mc ec]; try done;
    destruct M as [sM|sM| |sM mM eM]; try done.
Qed.

(** The least of a positive number and one at or above it is the former. *)
Lemma Math_min_below (m M : number) :
  ltb (of_Z 0) m = true → leb m M = true → Math_min m M = m.
Proof.
  intros Hpos Hle. pose proof (leb_not_gtb m M Hle) as Hgt. unfold ltb in Hgt.
  destruct m as [sm|sm| |sm mm em]; try done;
    destruct M as [sM|sM| |sM mM eM]; try done; simpl; by rewrite ?Hgt.
Qed.

(** A division by a zero yields no finite number. *)
Lemma div_by_zero (x z : number) :
  is_zero z = true → isFinite (Math_trunc (div x z)) = false.
Proof. destruct z; try done. by destruct x. Qed.

(** A finite number divided by a zero is an infinity, and NaN when it is a
    zero itself. *)
Lemma div_by_zero_value (x z : number) :
  finite x → leb (of_Z 0) x = true → is_zero z = true →
  div x z = (if is_zero x then NaN
             else match z with
                  | S754_zero s => S754_infinity s
                  | _ => NaN
                  end).
Proof.
  destruct z as [sz| | |]; try done.
  destruct x as [sx|sx| |sx mx ex]; try done. by destruct sx.
Qed.

(** C9, as the code has it. For every non-negative finite width and every
    pair of finite thumbnail sizes with [0 < minSize <= maxSize],
    [get_column_layout] returns a cell size that is finite, so not NaN, and
    at most [maxSize]. When [width < minSize] the number of columns is a
    zero, the division [width / numColumns] yields an infinity (NaN for a
    width of zero), which [Math.trunc] keeps, and the guard sets the cell
    size to [minSize]. The numbers are binary64 values. *)
Theorem get_column_layout_cellSize (width minSize maxSize : number) :
  binary64 width → binary64 minSize →
  finite width → leb (of_Z 0) width = true →
  finite minSize →
  ltb (of_Z 0) minSize = true →
  leb minSize maxSize = true →
  finite (get_column_layout width minSize maxSize).2
  ∧ isNaN (get_column_layout width minSize maxSize).2 = false
  ∧ leb (get_column_layout width minSize maxSize).2 maxSize = true
  ∧ (ltb width minSize = true →
     is_zero (get_column_layout width minSize maxSize).1 = true
     ∧ (∃ s, div width (get_column_layout width minSize maxSize).1
             = (if is_zero width then NaN else S754_infinity s))
     ∧ isFinite
         (Math_trunc (div width (get_column_layout width minSize maxSize).1))
       = false
     ∧ (get_column_layout width minSize maxSize).2 = minSize).
Proof.
  intros Hbw Hbm Hwfin Hwpos Hfin Hpos Hle.
  unfold get_column_layout. cbn [fst snd].
  set (numColumns := Math_trunc (div width minSize)).
  set (cellSize := Math_trunc (div width numColumns)).
  pose proof (guarded_finite cellSize minSize Hfin) as Hguard.
  destruct (above_finite minSize maxSize Hfin Hle) as [HM Hinf].
  assert (Hmin : finite
    (Math_min (if isNaN cellSize || negb (isFinite cellSize) then minSize
               else cellSize) maxSize)) by by apply Math_min_finite.
  split; [done|]. split; [by apply isFinite_not_NaN|].
  split; [by apply Math_min_le; [apply isFinite_not_NaN|]|].
  intros Hlt.
  pose proof (narrow_quotient_is_zero width minSize Hbw Hbm Hwfin Hwpos Hlt)
    as Hzero.
  fold numColumns in Hzero.
  pose proof (div_by_zero width numColumns Hzero) as Hdiv.
  split; [done|]. split.
  - rewrite (div_by_zero_value width numColumns Hwfin Hwpos Hzero).
    destruct numColumns as [s| | |]; try done. by exists s.
  - split; [done|]. fold cellSize in Hdiv. rewrite Hdiv, orb_true_r.
    by apply Math_min_below.
Qed.

Lemma get_column_layout_cellSize_witness :
  let width := of_Z 100 in
  let minSize := (getThumbnailSize small).1 in
  let maxSize := (getThumbnailSize small).2 in
  (binary64 width ∧ binary64 minSize)
  ∧ (finite width ∧ leb (of_Z 0) width = true)
  ∧ (finite minSize ∧ ltb (of_Z 0) minSize = true
     ∧ leb minSize maxSize = true)
  ∧ ltb width minSize = true
  ∧ finite (get_column_layout width minSize maxSize).2
  ∧ leb (get_column_layout width minSize maxSize).2 maxSize = true
  ∧ is_zero (get_column_layout width minSize maxSize).1 = true
  ∧ (get_column_layout width minSize maxSize).2 = minSize.
Proof.
  intros width minSize maxSize.
  assert (Hbw : binary64 width) by (vm_compute; reflexivity).
  assert (Hbm : binary64 minSize) by (vm_compute; reflexivity).
  assert (Hwfin : finite width) by (vm_compute; reflexivity).
  assert (Hwpos : leb (of_Z 0) width = true) by (vm_compute; reflexivity).
  assert (Hfin : finite minSize) by (vm_compute; reflexivity).
  assert (Hpos : ltb (of_Z 0) minSize = true) by (vm_compute; reflexivity).
  assert (Hle : leb minSize maxSize = true) by (vm_compute; reflexivity).
  assert (Hlt : ltb width minSize = true) by (vm_compute; reflexivity).
  pose proof (get_column_layout_cellSize width minSize maxSize
                Hbw Hbm Hwfin Hwpos Hfin Hpos Hle) as (Hc & _ & Hm & Hnarrow).
  destruct (Hnarrow Hlt) as (Hzero & _ & _ & Hcell).
  split; [exact (conj Hbw Hbm)|]. split; [exact (conj Hwfin Hwpos)|].
  split; [exact (conj Hfin (conj Hpos Hle))|]. split; [exact Hlt|].
  split; [exact Hc|]. split; [exact Hm|]. split; [exact Hzero|exact Hcell].
Defined.

(** C9, as stated, fails: it asks nothing of the sizes but
    [0 < minSize <= maxSize], which [Infinity] meets, and for a thumbnail
    size pair of infinities the cell size is [Infinity]. *)
Lemma infinite_thumbnail_size_cellSize :
  ¬ (∀ width minSize maxSize : number,
       binary64 width → binary64 minSize → binary64 maxSize →
       finite width → leb (of_Z 0) width = true →
       ltb (of_Z 0) minSize = true →
       leb minSize maxSize = true →
       finite (get_column_layout width minSize maxSize).2
       ∧ isNaN (get_column_layout width minSize maxSize).2 = false
       ∧ leb (get_column_layout width minSize maxSize).2 maxSize = true).
Proof.
  intros H.
  destruct (H (of_Z 1000) Infinity Infinity
              eq_refl eq_refl eq_refl eq_refl eq_refl eq_refl eq_refl)
    as [Hfinite _].
  discriminate Hfinite.
Qed.

(** Windows narrower than the least thumbnail size hold no column. *)
Lemma narrow_window_has_no_column :
  (get_column_layout (of_Z 100) (getThumbnailSize small).1
     (getThumbnailSize small).2).1 = S754_zero false
  ∧ (get_column_layout (of_Z 0) (getThumbnailSize medium).1
       (getThumbnailSize medium).2).1 = S754_zero false
  ∧ (get_column_layout (of_Z 295) (getThumbnailSize large).1
       (getThumbnailSize large).2).1 = S754_zero false.
Proof. repeat split; vm_compute; reflexivity. Qed.

End ColumnLayout.

(** ** Byte labels *)

Section ByteLabels.

Import Number Inspector.

Variable Math_log : number → number.
Variable Math_pow : number → number → number.
Variable toFixed : number → nat → string.

(** C10. For every input [bytes <= 0], zero or negative, [getBytes] returns
    exactly the string "0 Bytes", and makes no library call on the way:
    neither logarithm nor any other step of the suffix computation. *)
Theorem getBytes_nonpositive (bytes : number) :
  leb bytes (of_Z 0) = true →
  getBytes Math_log Math_pow toFixed bytes = ([], "0 Bytes"%string).
Proof. intros Hle. unfold getBytes. rewrite Hle. reflexivity. Qed.

End ByteLabels.

Lemma getBytes_nonpositive_witness :
  let log (x : Number.number) := x in
  let pow (x y : Number.number) := x in
  let fixed (x : Number.number) (d : nat) := "0.00"%string in
  Number.leb (Number.of_Z (-5)) (Number.of_Z 0) = true
  ∧ Inspector.getBytes log pow fixed (Number.of_Z (-5)) = ([], "0 Bytes"%string)
  ∧ Inspector.getBytes log pow fixed (Number.of_Z 0) = ([], "0 Bytes"%string).
Proof.
  intros log pow fixed. split; [vm_compute; reflexivity|]. split.
  - apply (getBytes_nonpositive log pow fixed). vm_compute. reflexivity.
  - apply (getBytes_nonpositive log pow fixed). vm_compute. reflexivity.
Defined.

(** ** The tag graph *)

Section TagGraphFacts.

Import Core.

Implicit Types (g : TagGraph) (work visited : list ID).

Lemma children_spec g p c : c ∈ children g p ↔ child g p c.
Proof.
  unfold children, child. rewrite list_elem_of_fmap. split.
  - intros ([p' c'] & -> & [Hp Hin]%list_elem_of_filter). simpl in Hp.
    by subst.
  - intros Hin. exists (p, c). split; [done|]. by apply list_elem_of_filter.
Qed.

(** The traversal only ever visits tags of a set that holds its work items,
    its visited tags and the children of its own tags. *)
Lemma traverse_sound (P : ID → Prop) g fuel work visited :
  (∀ x y, P x → child g x y → P y) →
  Forall P work → Forall P visited →
  Forall P (traverse fuel g work visited).
Proof.
  intros Hstep. revert work visited.
  induction fuel as [|fuel IH]; intros work visited Hw Hv; simpl; [done|].
  destruct work as [|t rest]; [done|].
  apply Forall_cons in Hw as [Ht Hrest].
  destruct (decide (t ∈ visited)); [by apply IH|].
  apply IH; [|by constructor].
  apply Forall_app. split; [|done].
  apply Forall_forall. intros y Hy%children_spec. by eapply Hstep.
Qed.

(** Visiting a tag retires its edges. *)
Lemma potential_visit g t visited :
  t ∉ visited →
  (length (children g t) + length (filter (fun e => e.1 ∉ t :: visited) g)
   = length (filter (fun e => e.1 ∉ visited) g))%nat.
Proof.
  intros Ht. unfold children. rewrite length_fmap.
  induction g as [|[p c] g IH]; [done|].
  rewrite (filter_cons (fun e : ID * ID => e.1 = t)),
    (filter_cons (fun e : ID * ID => e.1 ∉ t :: visited)),
    (filter_cons (fun e : ID * ID => e.1 ∉ visited)).
  cbn [fst].
  repeat case_decide; simpl length; try lia; exfalso;
    repeat match goal with
           | H : context [_ ∈ _ :: _] |- _ => rewrite elem_of_cons in H
           end;
    subst; tauto.
Qed.

(** With enough fuel the traversal runs to the end: its result holds the
    visited tags and the work items and is closed under children. *)
Lemma traverse_complete g fuel work visited :
  (potential g work visited ≤ fuel)%nat →
  (∀ x y, x ∈ visited → child g x y → y ∈ visited ∨ y ∈ work) →
  visited ⊆ traverse fuel g work visited
  ∧ work ⊆ traverse fuel g work visited
  ∧ closed g (traverse fuel g work visited).
Proof.
  revert work visited.
  induction fuel as [|fuel IH]; intros work visited Hfuel Hinv.
  - unfold potential in Hfuel. destruct work as [|t rest]; [|simpl in Hfuel; lia].
    simpl. split; [done|]. split; [apply list_subseteq_nil|].
    intros x y Hx Hxy. destruct (Hinv x y Hx Hxy) as [|[]%elem_of_nil]; done.
  - destruct work as [|t rest]; simpl.
    { split; [done|]. split; [apply list_subseteq_nil|].
      intros x y Hx Hxy. destruct (Hinv x y Hx Hxy) as [|[]%elem_of_nil]; done. }
    unfold potential in Hfuel. simpl in Hfuel.
    destruct (decide (t ∈ visited)) as [Hin|Hin].
    + destruct (IH rest visited) as (Hv & Hw & Hc).
      * unfold potential. lia.
      * intros x y Hx Hxy.
        destruct (Hinv x y Hx Hxy) as [|[->|]%elem_of_cons]; auto.
      * split; [done|]. split; [|done].
        intros x [->|Hx]%elem_of_cons; auto.
    + destruct (IH (children g t ++ rest) (t :: visited)) as (Hv & Hw & Hc).
      * unfold potential. rewrite length_app.
        pose proof (potential_visit g t visited Hin). lia.
      * intros x y [->|Hx]%elem_of_cons Hxy.
        -- right. apply elem_of_app. left. by apply children_spec.
        -- destruct (Hinv x y Hx Hxy) as [|[->|]%elem_of_cons].
           ++ left. by apply list_elem_of_further.
           ++ left. apply list_elem_of_here.
           ++ right. apply elem_of_app. by right.
      * split; [|split; [|done]].
        -- intros x Hx. apply Hv. by apply list_elem_of_further.
        -- intros x [->|Hx]%elem_of_cons.
           ++ apply Hv, list_elem_of_here.
           ++ apply Hw, elem_of_app. by right.
Qed.

(** [reach] computes the tags at the end of a path of child edges. *)
Lemma reach_spec g t x : x ∈ reach g t ↔ tc (child g) t x.
Proof.
  unfold reach. split.
  - revert x. apply Forall_forall.
    apply (traverse_sound (tc (child g) t)).
    + intros y z Hy Hyz. by eapply tc_r.
    + apply Forall_forall. intros y Hy%children_spec. by apply tc_once.
    + constructor.
  - destruct (traverse_complete g (length (children g t) + length g)
                (children g t) []) as (_ & Hw & Hc).
    + unfold potential. pose proof (length_filter (fun e => e.1 ∉ []) g). lia.
    + intros y z []%elem_of_nil.
    + intros Htc.
      assert (Hgen : ∀ s, tc (child g) s x →
                s = t ∨ s ∈ traverse (length (children g t) + length g) g
                              (children g t) [] →
                x ∈ traverse (length (children g t) + length g) g
                      (children g t) []).
      { clear Htc. intros s Htc.
        induction Htc as [s y Hsy|s y z Hsy _ IH]; intros Hs.
        - destruct Hs as [->|Hs]; [by apply Hw, children_spec|by eapply Hc].
        - apply IH. right.
          destruct Hs as [->|Hs]; [by apply Hw, children_spec|by eapply Hc]. }
      apply (Hgen t Htc). by left.
Qed.

(** [descendants] is the transitive closure of the child edges from a tag,
    the tag itself left out. *)
Lemma descendants_spec g t x :
  x ∈ descendants g t ↔ x ≠ t ∧ tc (child g) t x.
Proof. unfold descendants. by rewrite list_elem_of_filter, reach_spec. Qed.

Lemma acyclicb_sound g : acyclicb g = true → acyclic g.
Proof.
  unfold acyclicb, acyclic. intros Hall t Htc.
  assert (∃ y, child g t y) as [y Hy].
  { inversion Htc; subst; eauto. }
  rewrite forallb_forall in Hall.
  specialize (Hall (t, y) (proj1 (list_elem_of_In _ _) Hy)).
  apply bool_decide_eq_true in Hall. apply Hall. by apply reach_spec.
Qed.

(** In an acyclic graph every tag down a path of child edges is a
    descendant. *)
Lemma acyclic_descendants g a b :
  acyclic g → tc (child g) a b → b ∈ descendants g a.
Proof.
  intros Hg Hab. apply descendants_spec. split; [|done].
  intros ->. by apply (Hg a).
Qed.

(** *** The invariant of the tag graph *)

Lemma flip_edges_child g p c : child (flip_edges g) p c ↔ child g c p.
Proof.
  unfold child, flip_edges. rewrite list_elem_of_fmap. split.
  - intros ([x y] & [= -> ->] & Hin). done.
  - intros Hin. by exists (c, p).
Qed.

Lemma flip_edges_tc g x y : tc (child (flip_edges g)) x y ↔ tc (child g) y x.
Proof.
  split.
  - induction 1 as [x y Hxy|x y z Hxy _ IH].
    + by apply tc_once, flip_edges_child.
    + eapply tc_r; [exact IH|]. by apply flip_edges_child.
  - induction 1 as [y x Hxy|z y x Hxy _ IH].
    + by apply tc_once, flip_edges_child.
    + eapply tc_r; [exact IH|]. by apply flip_edges_child.
Qed.

(** A path in a graph with one more edge either avoids the edge or leads
    to its parent and goes on from its child. *)
Lemma tc_new_edge g p c x y :
  tc (child (g ++ [(p, c)])) x y →
  tc (child g) x y ∨ (rtc (child g) x p ∧ rtc (child g) c y).
Proof.
  assert (Hedge : ∀ a b, child (g ++ [(p, c)]) a b →
                         child g a b ∨ (a = p ∧ b = c)).
  { intros a b [Hin|Hin%list_elem_of_singleton]%elem_of_app; [by left|].
    right. by injection Hin. }
  induction 1 as [x y Hxy|x y z Hxy _ IH].
  - destruct (Hedge x y Hxy) as [Hg|[-> ->]]; [left; by apply tc_once|].
    right. split; apply rtc_refl.
  - destruct (Hedge x y Hxy) as [Hg|[-> ->]].
    + destruct IH as [IH|[IHp IHc]].
      * left. by eapply tc_l.
      * right. split; [by eapply rtc_l|done].
    + right. split; [apply rtc_refl|].
      destruct IH as [IH|[_ IHc]]; [by apply tc_rtc|done].
Qed.

(** An edge that is added keeps the graph acyclic. *)
Lemma addEdge_acyclic g p c g' :
  acyclic g → addEdge g p c = Ok g' → acyclic g'.
Proof.
  unfold addEdge. intros Hg Hadd.
  destruct (decide (c = p ∨ c ∈ ancestors g p)) as [|Hno]; [done|].
  destruct (decide ((p, c) ∈ g)); injection Hadd as <-; [done|].
  assert (Hcp : ¬ rtc (child g) c p).
  { intros [->|Htc]%rtc_tc; apply Hno; [by left|]. right.
    apply descendants_spec. split; [|by apply flip_edges_tc].
    intros ->. by apply (Hg p). }
  intros t [Htc|[Htp Hct]]%tc_new_edge; [by apply (Hg t)|].
  apply Hcp. by etrans.
Qed.

(** A refused edge is one that would close a cycle. *)
Lemma addEdge_refused g p c :
  addEdge g p c = Err CycleError ↔ c = p ∨ (c ≠ p ∧ tc (child g) c p).
Proof.
  unfold addEdge.
  destruct (decide (c = p ∨ c ∈ ancestors g p)) as [Hyes|Hno].
  - split; [intros _|done]. destruct Hyes as [->|Hanc]; [by left|].
    apply descendants_spec in Hanc as [Hne Htc].
    right. split; [done|]. by apply flip_edges_tc.
  - split; [by destruct (decide ((p, c) ∈ g))|].
    intros [->|[Hne Htc]]; exfalso; apply Hno; [by left|]. right.
    apply descendants_spec. split; [done|]. by apply flip_edges_tc.
Qed.

Lemma removeEdge_acyclic g p c : acyclic g → acyclic (removeEdge g p c).
Proof.
  intros Hg t Htc. apply (Hg t). clear Hg.
  assert (Hsub : ∀ a b, child (removeEdge g p c) a b → child g a b).
  { intros a b. unfold child, removeEdge. rewrite list_elem_of_filter. tauto. }
  assert (Hpath : ∀ a b, tc (child (removeEdge g p c)) a b → tc (child g) a b).
  { induction 1 as [x y Hxy|x y z Hxy _ IH].
    - by apply tc_once, Hsub.
    - eapply tc_l; [by apply Hsub|done]. }
  by apply Hpath.
Qed.

(** Every tag graph is acyclic. *)
Lemma tag_graph_acyclic g : tag_graph g → acyclic g.
Proof.
  induction 1 as [|g p c g' _ IH Hadd|g p c _ IH].
  - intros t Htc. inversion Htc as [x y Hxy|x y z Hxy]; subst;
      by apply elem_of_nil in Hxy.
  - by eapply addEdge_acyclic.
  - by apply removeEdge_acyclic.
Qed.

End TagGraphFacts.

(** ** The criterion evaluator and the query *)

Section EvaluatorFacts.

Import Core.

Implicit Types (g : TagGraph) (f : File) (c : Criterion).

Lemma intersects_spec (xs ys : list ID) :
  intersects xs ys = true ↔ ∃ x, x ∈ xs ∧ x ∈ ys.
Proof.
  unfold intersects. rewrite existsb_exists. split.
  - intros (x & Hx%list_elem_of_In & Hy%bool_decide_eq_true). eauto.
  - intros (x & Hx%list_elem_of_In & Hy). exists x.
    by rewrite bool_decide_eq_true.
Qed.

Lemma closure_spec g (operand : list ID) (x : ID) :
  x ∈ closure g operand ↔
  ∃ t, t ∈ operand ∧ (x = t ∨ x ∈ descendants g t).
Proof.
  unfold closure. rewrite list_elem_of_In, in_flat_map. split.
  - intros (t & Ht%list_elem_of_In & Hx%list_elem_of_In).
    exists t. split; [done|]. apply elem_of_cons in Hx. tauto.
  - intros (t & Ht%list_elem_of_In & Hx). exists t. split; [done|].
    apply list_elem_of_In, elem_of_cons. tauto.
Qed.

(** C4. For every tag graph, file and tag criterion with the operator
    [containsRecursively], evaluation returns a boolean, and returns true
    exactly when some assigned tag of the file is an operand tag id or one of
    its descendants, where the descendants of a tag are the tags down a path
    of child edges from it, the tag itself left out. So, in a tag graph
    (acyclic, by its invariant), if [b] is a descendant of [a], a file tagged
    only with [b] satisfies [containsRecursively] targeting [a] and does not
    satisfy [contains] targeting [a]. *)
Theorem containsRecursively_spec :
  (∀ g f k operand,
     ∃ r, evaluate (TagCriterion k TagOp.containsRecursively operand) f g = Ok r
          ∧ (r = true ↔
             ∃ x t, x ∈ file_tags f ∧ t ∈ operand
                    ∧ (x = t ∨ x ∈ descendants g t)))
  ∧ (∀ g t x, x ∈ descendants g t ↔ x ≠ t ∧ tc (child g) t x)
  ∧ (∀ g f k a b,
       acyclic g → tc (child g) a b → file_tags f = [b] →
       evaluate (TagCriterion k TagOp.containsRecursively [a]) f g = Ok true
       ∧ evaluate (TagCriterion k TagOp.contains [a]) f g = Ok false).
Proof.
  split; [|split].
  - intros g f k operand. eexists. split; [reflexivity|].
    cbn [eval_tag].
    rewrite intersects_spec. split.
    + intros (x & Hx & (t & Ht & Hxt)%closure_spec). eauto.
    + intros (x & t & Hx & Ht & Hxt). exists x. split; [done|].
      apply closure_spec. eauto.
  - apply descendants_spec.
  - intros g f k a b Hg Hab Hf. cbn [evaluate eval_tag]. rewrite Hf.
    split; f_equal.
    + apply intersects_spec. exists b. split; [apply list_elem_of_here|].
      apply closure_spec. exists a. split; [apply list_elem_of_here|].
      right. by apply acyclic_descendants.
    + apply not_true_is_false. intros (x & Hx & Ha)%intersects_spec.
      apply list_elem_of_singleton in Hx, Ha. subst. by apply (Hg a).
Qed.

(** The scenario of the specification: [Animal → Dog → Labrador], files
    tagged [Labrador], [Dog] and [Cat], filtered on [Animal]. *)
Lemma animal_scenario :
  let g := [("Animal", "Dog"); ("Dog", "Labrador")]%string in
  let file tag := mkFile "f" [tag] (fun _ => None) in
  let recursive := TagCriterion "tags" TagOp.containsRecursively ["Animal"%string] in
  let direct := TagCriterion "tags" TagOp.contains ["Animal"%string] in
  acyclic g
  ∧ evaluate recursive (file "Labrador"%string) g = Ok true
  ∧ evaluate recursive (file "Dog"%string) g = Ok true
  ∧ evaluate recursive (file "Cat"%string) g = Ok false
  ∧ evaluate direct (file "Labrador"%string) g = Ok false
  ∧ evaluate direct (file "Dog"%string) g = Ok false.
Proof.
  intros g file recursive direct.
  split; [by apply acyclicb_sound|]. repeat split; vm_compute; reflexivity.
Qed.

(** C5. For every file and tag graph, a query with zero criteria matches
    the file under [matchAll] and does not match it under [matchAny]. *)
Theorem empty_query_asymmetry f g :
  matches (mkQuery [] matchAll) f g = Ok true
  ∧ matches (mkQuery [] matchAny) f g = Ok false.
Proof. split; reflexivity. Qed.

(** A criterion that is well-formed for a file evaluates to a boolean. *)
Lemma evaluate_total c f g :
  well_formed c f → ∃ r, evaluate c f g = Ok r.
Proof.
  destruct c as [k op v|k op v|k op v|k op v]; simpl.
  - eauto.
  - intros [x ->]. eauto.
  - intros [x ->]. eauto.
  - intros [x ->]. eauto.
Qed.

(** Over well-formed criteria, [matchAll] is the conjunction and [matchAny]
    the disjunction of the criteria's results. *)
Lemma matches_all_any (cs : list Criterion) f g :
  Forall (fun c => well_formed c f) cs →
  ∃ rs, Forall2 (fun c r => evaluate c f g = Ok r) cs rs
        ∧ matches (mkQuery cs matchAll) f g = Ok (forallb id rs)
        ∧ matches (mkQuery cs matchAny) f g = Ok (existsb id rs).
Proof.
  unfold matches. cbn [mode criteria].
  induction 1 as [|c cs Hc _ (rs & Hrs & Hall & Hany)].
  - exists []. repeat split. constructor.
  - destruct (evaluate_total c f g Hc) as [r Hr]. exists (r :: rs).
    split; [by constructor|]. simpl. rewrite Hr, Hall, Hany.
    by destruct r.
Qed.

(** C6. For every paired positive and negative operator ([contains] and
    [notContains], [containsRecursively] and [containsNotRecursively],
    [equals] and [notEqual], [startsWith] and [notStartsWith]) and every
    criterion that is well-formed for a file, the criterion with the
    negative operator evaluates to the negation of the criterion with the
    positive one: exactly one of the two evaluates to true. *)
Theorem negation_duality c c' f g :
  paired c c' → well_formed c f →
  ∃ r, evaluate c f g = Ok r ∧ evaluate c' f g = Ok (negb r).
Proof.
  intros Hpair Hwf.
  destruct Hpair as [k p n v Hop|k p n v Hop|k p n v Hop|k p n v Hop];
    simpl in *.
  - destruct Hop; eauto.
  - destruct Hwf as [x ->]. destruct Hop; eauto.
  - destruct Hwf as [x ->]. destruct Hop; eauto.
  - destruct Hwf as [x ->]. destruct Hop; eauto.
Qed.

Lemma negation_duality_witness :
  let f := mkFile "f1" ["Dog"%string]
             (fun k => if decide (k = "name"%string)
                       then Some (FString "vacation.jpg") else None) in
  let c := StringCriterion "name" StringOp.startsWith "vac" in
  let c' := StringCriterion "name" StringOp.notStartsWith "vac" in
  paired c c' ∧ well_formed c f
  ∧ ∃ r, evaluate c f [] = Ok r ∧ evaluate c' f [] = Ok (negb r).
Proof.
  intros f c c'.
  assert (Hp : paired c c') by (constructor; constructor).
  assert (Hw : well_formed c f) by (by eexists).
  split; [exact Hp|]. split; [exact Hw|].
  exact (negation_duality c c' f [] Hp Hw).
Defined.

End EvaluatorFacts.

(** ** Item indices of the gallery *)

Section GalleryIndexFacts.

Import JsArray GalleryIndex.

Context {File : Type}.

Implicit Types (data fileList : list File).

(** A slice between two positions from the start of the array. *)
Lemma Array_slice_nonneg data (a b : Z) :
  0 ≤ a → a ≤ b →
  Array_slice data a b = take (Z.to_nat (b - a)) (drop (Z.to_nat a) data).
Proof.
  intros Ha Hab. unfold Array_slice, relative_index. cbv zeta.
  rewrite (proj2 (Z.ltb_ge a 0)), (proj2 (Z.ltb_ge b 0)) by lia.
  destruct (decide (Z.of_nat (length data) ≤ a)) as [Hout|Hin].
  - rewrite (Z.min_r a), (Z.min_r b) by lia.
    rewrite (drop_ge data (Z.to_nat a)) by lia.
    rewrite (drop_ge data (Z.to_nat (Z.of_nat (length data)))) by lia.
    by rewrite !take_nil.
  - rewrite (Z.min_l a) by lia.
    destruct (decide (b ≤ Z.of_nat (length data))) as [Hb|Hb].
    + by rewrite (Z.min_l b) by lia.
    + rewrite (Z.min_r b) by lia.
      rewrite !take_ge; [done|rewrite length_drop; lia..].
Qed.

Lemma Array_slice_lookup data (a b : Z) (i : nat) (x : File) :
  0 ≤ a → a ≤ b →
  Array_slice data a b !! i = Some x ↔
  Z.of_nat i < b - a ∧ data !! (Z.to_nat a + i)%nat = Some x.
Proof.
  intros Ha Hab. rewrite Array_slice_nonneg by done.
  rewrite lookup_take_Some, lookup_drop. split; intros [? ?]; split; (done || lia).
Qed.

Lemma fmap_snd_imap (l : list File) :
  (snd <$> imap (fun i file => (Z.of_nat i + 1, file)) l) = l.
Proof.
  apply list_eq. intros i. rewrite list_lookup_fmap, list_lookup_imap.
  by destruct (l !! i).
Qed.

(** X5. Left and right: from a file of the list the keys select the file next
    to it, stay inside the list, do nothing at its two ends, and undo each
    other. *)
Theorem layout_arrow_keys (index length : Z) :
  0 ≤ index < length →
  (∀ key index', layout_onKeyDown (Some index) length key = Some index' →
     0 ≤ index' < length
     ∧ ((key = ArrowLeft ∧ index' = index - 1)
        ∨ (key = ArrowRight ∧ index' = index + 1)))
  ∧ (layout_onKeyDown (Some index) length ArrowLeft
     = if decide (index = 0) then None else Some (index - 1))
  ∧ (layout_onKeyDown (Some index) length ArrowRight
     = if decide (index = length - 1) then None else Some (index + 1))
  ∧ (index < length - 1 →
     layout_onKeyDown (Some (index + 1)) length ArrowLeft = Some index)
  ∧ (0 < index →
     layout_onKeyDown (Some (index - 1)) length ArrowRight = Some index).
Proof.
  intros Hi. unfold layout_onKeyDown. repeat split.
  - revert H. destruct key; simpl; repeat case_match; intros [= <-]; lia.
  - revert H. destruct key; simpl; repeat case_match; intros [= <-]; lia.
  - revert H. destruct key; simpl; repeat case_match; intros [= <-];
      (by left) || (by right) || lia.
  - simpl. destruct (decide (index = 0)) as [->|]; [done|].
    by rewrite (proj2 (Z.ltb_lt 0 index)) by lia.
  - simpl. destruct (decide (index = length - 1)) as [->|].
    + by rewrite Z.ltb_irrefl.
    + by rewrite (proj2 (Z.ltb_lt index (length - 1))) by lia.
  - intros Hlt. simpl. rewrite (proj2 (Z.ltb_lt 0 (index + 1))) by lia.
    f_equal. lia.
  - intros Hlt. simpl.
    rewrite (proj2 (Z.ltb_lt (index - 1) (length - 1))) by lia. f_equal. lia.
Qed.

Lemma layout_arrow_keys_witness :
  0 ≤ 2 < 5
  ∧ layout_onKeyDown (Some 2) 5 ArrowRight = Some 3
  ∧ layout_onKeyDown (Some 3) 5 ArrowLeft = Some 2.
Proof.
  assert (H : 0 ≤ 2 < 5) by lia.
  destruct (layout_arrow_keys 2 5 H) as (_ & _ & Hr & Hl & _).
  split; [exact H|]. split; [exact Hr|]. apply Hl. lia.
Defined.

(** X6. Up and down: from a file of the list the keys select a file of the
    list; down from any file but the last always selects, ending on the last
    file when there is no full row below; and the two keys undo each other
    where down was not cut short. *)
Theorem grid_arrow_keys (index length numColumns : Z) :
  0 ≤ numColumns → 0 ≤ index < length →
  (∀ key index',
     grid_onKeyDown (Some index) length numColumns key = Some index' →
     0 ≤ index' < length)
  ∧ (grid_onKeyDown (Some index) length numColumns ArrowDown
     = if decide (index = length - 1) then None
       else Some (Z.min (index + numColumns) (length - 1)))
  ∧ (grid_onKeyDown (Some index) length numColumns ArrowUp
     = if decide (index < numColumns) then None else Some (index - numColumns))
  ∧ (index + numColumns ≤ length - 1 →
     grid_onKeyDown (Some (index + numColumns)) length numColumns ArrowUp
     = Some index)
  ∧ (0 < numColumns ≤ index →
     grid_onKeyDown (Some (index - numColumns)) length numColumns ArrowDown
     = Some index).
Proof.
  intros Hn Hi. unfold grid_onKeyDown.
  split; [|split; [|split; [|split]]].
  - intros key index'.
    destruct key; simpl; repeat case_match; intros [= <-]; lia.
  - simpl. destruct (decide (index = length - 1)) as [->|Hne].
    + by rewrite Z.ltb_irrefl.
    + rewrite (proj2 (Z.ltb_lt index (length - 1))) by lia.
      by rewrite (proj2 (Z.ltb_lt index (length + numColumns - 1))) by lia.
  - simpl. destruct (decide (index < numColumns)) as [Hlt|Hge].
    + by rewrite (proj2 (Z.leb_gt numColumns index)) by lia.
    + by rewrite (proj2 (Z.leb_le numColumns index)) by lia.
  - intros Hfit. simpl.
    rewrite (proj2 (Z.leb_le numColumns (index + numColumns))) by lia.
    f_equal. lia.
  - intros Hup. simpl.
    rewrite (proj2 (Z.ltb_lt (index - numColumns) (length - 1))) by lia.
    rewrite (proj2 (Z.ltb_lt (index - numColumns) (length + numColumns - 1)))
      by lia.
    simpl. f_equal. lia.
Qed.

Lemma grid_arrow_keys_witness :
  0 ≤ 4 ∧ 0 ≤ 5 < 10
  ∧ grid_onKeyDown (Some 5) 10 4 ArrowDown = Some 9
  ∧ grid_onKeyDown (Some 5) 10 4 ArrowUp = Some 1
  ∧ grid_onKeyDown (Some 1) 10 4 ArrowDown = Some 5.
Proof.
  assert (Hn : 0 ≤ 4) by lia. assert (Hi : 0 ≤ 5 < 10) by lia.
  destruct (grid_arrow_keys 5 10 4 Hn Hi) as (_ & Hd & Hu & _ & Hb).
  split; [exact Hn|]. split; [exact Hi|]. split; [exact Hd|].
  split; [exact Hu|]. apply Hb. lia.
Defined.

(** X7. A click on a cell of the grid finds the file the cell shows: the index
    [getGridItemIndex] computes from the row's [aria-rowindex] and the cell's
    column index is the place of the cell's file in the list. A row holds at
    most [columns] cells, numbered from one. *)
Theorem grid_cell_round_trip data (index columns : Z) (i : nat)
    (colIndex : Z) (file : File) :
  0 ≤ index → 0 ≤ columns →
  GridRow_cells data index columns !! i = Some (colIndex, file) →
  1 ≤ colIndex ≤ columns
  ∧ ∃ k, getGridItemIndex true (aria_rowindex index) colIndex columns = Some k
         ∧ at_index data k = Some file.
Proof.
  intros Hi Hc. unfold GridRow_cells.
  rewrite list_lookup_imap_Some. intros (x & Hx & [= -> ->]).
  apply Array_slice_lookup in Hx as [Hlt Hx]; [|nia|nia].
  split; [lia|]. eexists. split; [reflexivity|].
  unfold at_index, aria_rowindex.
  rewrite (proj2 (Z.ltb_ge _ 0)) by nia. rewrite <- Hx. f_equal. nia.
Qed.

(** The rows as plain pieces of the list. *)
Lemma GridRow_files data (r : nat) (n : Z) :
  0 ≤ n →
  (snd <$> GridRow_cells data (Z.of_nat r) n)
  = take (Z.to_nat n) (drop (r * Z.to_nat n) data).
Proof.
  intros Hn. unfold GridRow_cells. rewrite fmap_snd_imap.
  rewrite Array_slice_nonneg by nia. f_equal; [f_equal; lia|f_equal; nia].
Qed.

Lemma rows_take data (n : Z) (k : nat) :
  0 ≤ n →
  concat ((fun r => snd <$> GridRow_cells data r n) <$> seqZ 0 (Z.of_nat k))
  = take (k * Z.to_nat n) data.
Proof.
  intros Hn. unfold seqZ. rewrite Nat2Z.id, <- list_fmap_compose.
  induction k as [|k IH]; [done|].
  rewrite seq_S, fmap_app, concat_app, IH. simpl.
  rewrite Z.add_0_r, GridRow_files, app_nil_r by done.
  rewrite take_take_drop. f_equal. lia.
Qed.

(** X8. The rows of the grid show every file once, in order: with a positive
    number of columns the [numRows] rows, one after the other, are the file
    list, and no row is empty; with no column there is no row, so no file is
    shown. *)
Theorem grid_rows_cover data (numColumns : Z) :
  (numColumns ≤ 0 → numRows (Z.of_nat (length data)) numColumns = 0)
  ∧ (0 < numColumns →
     concat ((fun r => snd <$> GridRow_cells data r numColumns)
               <$> seqZ 0 (numRows (Z.of_nat (length data)) numColumns))
     = data
     ∧ ∀ r, 0 ≤ r < numRows (Z.of_nat (length data)) numColumns →
            GridRow_cells data r numColumns ≠ []).
Proof.
  unfold numRows. split.
  - intros Hn. by rewrite (proj2 (Z.ltb_ge 0 numColumns)) by lia.
  - intros Hn. rewrite (proj2 (Z.ltb_lt 0 numColumns)) by lia.
    pose proof (Z.div_mod (- Z.of_nat (length data)) numColumns) as Hdiv.
    pose proof (Z.mod_pos_bound (- Z.of_nat (length data)) numColumns Hn) as Hmod.
    set (q := - Z.of_nat (length data) / numColumns) in *.
    assert (Hq : 0 ≤ - q) by nia.
    split.
    + rewrite <- (Z2Nat.id (- q)) by done. rewrite rows_take by lia.
      apply take_ge. nia.
    + intros r Hr Hnil.
      assert (Hlen : length (snd <$> GridRow_cells data r numColumns) = 0%nat)
        by by rewrite Hnil.
      rewrite <- (Z2Nat.id r) in Hlen by lia.
      rewrite GridRow_files, length_take, length_drop in Hlen by lia. nia.
Qed.

(** X9. Scrolling to an item goes to the row that shows it: for a file of the
    list and a positive number of columns, the row [Math.floor(i /
    numColumns)] is one of the rows of the grid and holds the file, in
    column [i mod numColumns + 1]. *)
Theorem scroll_row_holds_item data (numColumns i : Z) (file : File) :
  0 < numColumns → at_index data i = Some file →
  0 ≤ scroll_row i numColumns < numRows (Z.of_nat (length data)) numColumns
  ∧ GridRow_cells data (scroll_row i numColumns) numColumns
      !! Z.to_nat (i `mod` numColumns)
    = Some (i `mod` numColumns + 1, file).
Proof.
  intros Hn. unfold at_index, scroll_row, numRows.
  destruct (i <? 0) eqn:Hi; [done|]. apply Z.ltb_ge in Hi. intros Hfile.
  pose proof (lookup_lt_Some _ _ _ Hfile) as Hlt.
  rewrite (proj2 (Z.ltb_lt 0 numColumns)) by lia.
  pose proof (Z.div_mod i numColumns) as Hdiv.
  pose proof (Z.mod_pos_bound i numColumns Hn) as Hmod.
  pose proof (Z.div_mod (- Z.of_nat (length data)) numColumns) as Hdiv'.
  pose proof (Z.mod_pos_bound (- Z.of_nat (length data)) numColumns Hn) as Hmod'.
  assert (Hq : 0 ≤ i / numColumns) by (apply Z.div_pos; lia).
  split; [nia|].
  unfold GridRow_cells. rewrite list_lookup_imap_Some. exists file.
  split; [|f_equal; lia].
  apply Array_slice_lookup; [nia|nia|]. split; [lia|].
  rewrite <- Hfile. f_equal. nia.
Qed.

(** X11. In slide mode the previous and next steps stay on files of the list:
    from a file of the list both lead to an index at which a file is shown,
    one place away or, at the two ends of the list, the same place. *)
Theorem slide_steps_in_range fileList (firstItem : Z) :
  0 ≤ firstItem < Z.of_nat (length fileList) →
  (∃ file, SlideGallery_render fileList (decrImgIndex firstItem)
           = ShowFile (Some file))
  ∧ (∃ file, SlideGallery_render fileList
               (incrImgIndex firstItem (Z.of_nat (length fileList)))
             = ShowFile (Some file))
  ∧ decrImgIndex firstItem
    = (if decide (firstItem = 0) then 0 else firstItem - 1)
  ∧ incrImgIndex firstItem (Z.of_nat (length fileList))
    = (if decide (firstItem = Z.of_nat (length fileList) - 1) then firstItem
       else firstItem + 1).
Proof.
  intros Hi.
  assert (Hshow : ∀ j, 0 ≤ j < Z.of_nat (length fileList) →
            ∃ file, SlideGallery_render fileList j = ShowFile (Some file)).
  { intros j Hj. unfold SlideGallery_render, at_index.
    rewrite (proj2 (Z.leb_gt _ j)), (proj2 (Z.ltb_ge j 0)) by lia.
    destruct (lookup_lt_is_Some_2 fileList (Z.to_nat j)) as [file Hfile];
      [lia|]. exists file. by rewrite Hfile. }
  unfold decrImgIndex, incrImgIndex.
  split; [apply Hshow; lia|]. split; [apply Hshow; lia|].
  split; case_decide; lia.
Qed.

(** X12. With an empty file list the notice is displayed at index zero only:
    at every index above it the preload effect reads [absolutePath] of an
    [undefined] previous file and throws. The next step sets the index to
    [-1], where the render function itself throws on the [undefined]
    file. *)
Theorem slide_next_on_empty_list (firstItem : Z) :
  0 ≤ firstItem →
  SlideGallery (@nil File) firstItem
  = (if decide (firstItem = 0) then Displays NoFilesAvailable []
     else TypeError)
  ∧ preload (@nil File) firstItem
    = (if decide (firstItem = 0) then Some [] else None)
  ∧ incrImgIndex firstItem 0 = -1
  ∧ SlideGallery_render (@nil File) (incrImgIndex firstItem 0) = ShowFile None
  ∧ SlideGallery (@nil File) (incrImgIndex firstItem 0) = TypeError.
Proof.
  intros Hi. unfold incrImgIndex. rewrite (Z.min_r (firstItem + 1)) by lia.
  assert (Hpre : preload (@nil File) firstItem
                 = (if decide (firstItem = 0) then Some [] else None)).
  { unfold preload. change (Z.of_nat (length (@nil File))) with 0.
    rewrite (proj2 (Z.ltb_ge (firstItem + 1) 0)) by lia.
    case_decide as H0; [by subst|].
    rewrite (proj2 (Z.leb_le 0 (firstItem - 1))) by lia.
    unfold at_index. by rewrite (proj2 (Z.ltb_ge (firstItem - 1) 0)) by lia. }
  split; [|done].
  unfold SlideGallery, SlideGallery_render.
  change (Z.of_nat (length (@nil File))) with 0.
  rewrite (proj2 (Z.leb_le 0 firstItem)) by lia. rewrite Hpre.
  by case_decide.
Qed.


(** X10. The first item the observer records for a row is the row's first file
    when the row is full; for a last row that is not full, below another
    row, it is a file of an earlier row, as the index is counted in cells of
    the row and not in columns. *)
Theorem observed_first_item data (numColumns r : Z) :
  0 < numColumns →
  0 ≤ r < numRows (Z.of_nat (length data)) numColumns →
  (Z.of_nat (length (GridRow_cells data r numColumns)) = numColumns →
   ∃ file, GridRow_cells data r numColumns !! 0%nat = Some (1, file)
           ∧ at_index data (observed_firstItem (aria_rowindex r) numColumns)
             = Some file)
  ∧ (Z.of_nat (length (GridRow_cells data r numColumns)) < numColumns →
     0 < r →
     0 ≤ scroll_row
           (observed_firstItem (aria_rowindex r)
              (Z.of_nat (length (GridRow_cells data r numColumns))))
           numColumns < r).
Proof.
  intros Hn Hr. unfold observed_firstItem, aria_rowindex. split.
  - intros Hfull.
    destruct (lookup_lt_is_Some_2 (GridRow_cells data r numColumns) 0)
      as [[col file] Hcell]; [lia|].
    unfold GridRow_cells in Hcell.
    apply list_lookup_imap_Some in Hcell as (x & Hx & [= -> ->]).
    exists x. split.
    + unfold GridRow_cells. apply list_lookup_imap_Some. eauto.
    + apply Array_slice_lookup in Hx as [_ Hx]; [|nia|nia].
      unfold at_index. rewrite (proj2 (Z.ltb_ge _ 0)) by nia.
      rewrite <- Hx. f_equal. nia.
  - intros Hpart Hpos. unfold scroll_row.
    set (k := Z.of_nat (length (GridRow_cells data r numColumns))) in *.
    assert (Hk : 0 ≤ k) by (unfold k; lia).
    split; [apply Z.div_pos; nia|].
    apply Z.div_lt_upper_bound; nia.
Qed.

End GalleryIndexFacts.

Lemma grid_cell_round_trip_witness :
  let data := ["a"; "b"; "c"; "d"; "e"]%string in
  0 ≤ 1 ∧ 0 ≤ 3
  ∧ GalleryIndex.GridRow_cells data 1 3 = [(1, "d"); (2, "e")]%string
  ∧ ∃ k, GalleryIndex.getGridItemIndex true (GalleryIndex.aria_rowindex 1) 2 3
           = Some k
         ∧ JsArray.at_index data k = Some "e"%string.
Proof.
  intros data.
  assert (Hi : 0 ≤ 1) by lia. assert (Hc : 0 ≤ 3) by lia.
  assert (Hcell : GalleryIndex.GridRow_cells data 1 3 !! 1%nat
                  = Some (2, "e"%string)) by reflexivity.
  split; [exact Hi|]. split; [exact Hc|]. split; [reflexivity|].
  exact (proj2 (grid_cell_round_trip data 1 3 1 2 "e"%string Hi Hc Hcell)).
Defined.

Lemma scroll_row_holds_item_witness :
  let data := ["a"; "b"; "c"; "d"; "e"]%string in
  0 < 3 ∧ JsArray.at_index data 4 = Some "e"%string
  ∧ GalleryIndex.scroll_row 4 3 = 1
  ∧ GalleryIndex.GridRow_cells data 1 3 !! 1%nat = Some (2, "e"%string).
Proof.
  intros data.
  assert (Hn : 0 < 3) by lia.
  assert (Hf : JsArray.at_index data 4 = Some "e"%string) by reflexivity.
  split; [exact Hn|]. split; [exact Hf|]. split; [reflexivity|].
  exact (proj2 (scroll_row_holds_item data 3 4 "e"%string Hn Hf)).
Defined.

Lemma slide_steps_in_range_witness :
  let fileList := ["a"; "b"; "c"]%string in
  0 ≤ 2 < Z.of_nat (length fileList)
  ∧ GalleryIndex.decrImgIndex 2 = 1
  ∧ GalleryIndex.incrImgIndex 2 (Z.of_nat (length fileList)) = 2.
Proof.
  intros fileList.
  assert (Hi : 0 ≤ 2 < Z.of_nat (length fileList)) by (simpl; lia).
  destruct (slide_steps_in_range fileList 2 Hi) as (_ & _ & Hd & Hu).
  split; [exact Hi|]. split; [exact Hd|exact Hu].
Defined.

Lemma slide_next_on_empty_list_witness :
  (0 ≤ 0 ∧ 0 ≤ 3)
  ∧ GalleryIndex.SlideGallery (@nil string) 0
    = GalleryIndex.Displays GalleryIndex.NoFilesAvailable []
  ∧ GalleryIndex.SlideGallery (@nil string) 3 = GalleryIndex.TypeError
  ∧ GalleryIndex.SlideGallery (@nil string) (GalleryIndex.incrImgIndex 0 0)
    = GalleryIndex.TypeError.
Proof.
  assert (H0 : 0 ≤ 0) by lia. assert (H3 : 0 ≤ 3) by lia.
  destruct (slide_next_on_empty_list (File := string) 0 H0)
    as (Hnotice & _ & _ & _ & Hnext).
  destruct (slide_next_on_empty_list (File := string) 3 H3)
    as (Hthrows & _).
  split; [exact (conj H0 H3)|]. split; [exact Hnotice|].
  split; [exact Hthrows|exact Hnext].
Defined.

(** ** The carousel *)

Section CarouselFacts.

Import JsArray Carousel.

Context {ClientFile : Type}.

Implicit Types (items : list ClientFile).

Lemma paddedItems_length items :
  length (paddedItems items) = (6 + length items)%nat.
Proof. unfold paddedItems. by rewrite length_app, length_replicate, length_fmap. Qed.

(** The padded entries that hold an item are those from the seventh on. *)
Lemma paddedItems_lookup items (j : nat) (file : ClientFile) :
  paddedItems items !! j = Some (Some file) ↔
  (6 ≤ j)%nat ∧ items !! (j - 6)%nat = Some file.
Proof.
  unfold paddedItems. change (Z.to_nat (maxItems - 1)) with 6%nat.
  destruct (decide (j < 6)%nat) as [Hlt|Hge].
  - rewrite lookup_app_l by (rewrite length_replicate; lia).
    rewrite lookup_replicate_2 by lia. split; [done|lia].
  - rewrite lookup_app_r by (rewrite length_replicate; lia).
    rewrite length_replicate, list_lookup_fmap.
    destruct (items !! (j - 6)%nat); simpl; split.
    + intros [= ->]. split; [lia|done].
    + by intros [_ [= ->]].
    + done.
    + by intros [_ ?].
Qed.

Lemma stack_lookup items (s : Z) (i : nat) (file : ClientFile) :
  0 ≤ s →
  stack items s !! i = Some (Some file) ↔
  (i < 7)%nat ∧ (6 ≤ Z.to_nat s + i)%nat
  ∧ items !! (Z.to_nat s + i - 6)%nat = Some file.
Proof.
  intros Hs. unfold stack, maxItems.
  rewrite Array_slice_lookup, paddedItems_lookup by lia.
  split; intros [? ?]; (split; [lia|done]).
Qed.

(** The stack never holds more than [maxItems] entries. *)
Lemma stack_length items (s : Z) : 0 ≤ s → (length (stack items s) ≤ 7)%nat.
Proof.
  intros Hs. unfold stack, maxItems. rewrite Array_slice_nonneg by lia.
  rewrite length_take. lia.
Qed.

(** X13. However the wheel is turned, the carousel of a non-empty selection goes
    on showing an image: [handleWheel] never fails, keeps the scroll index
    inside the padded items, and at the index it yields the stack holds an
    item. *)
Theorem carousel_wheel_keeps_an_image items deltaY (v : Z) :
  items ≠ [] →
  ∃ v', handleWheel items deltaY v = Some v'
        ∧ 0 ≤ v' ≤ Z.of_nat (length items) + 5
        ∧ (length (stack items v') ≤ 7)%nat
        ∧ ∃ i file, stack items v' !! i = Some (Some file).
Proof.
  intros Hitems. unfold handleWheel, clamp. rewrite paddedItems_length.
  set (delta := if Number.ltb _ _ then _ else _).
  rewrite (proj2 (Z.ltb_ge _ 0)) by lia. eexists. split; [reflexivity|].
  set (v' := Z.min _ _).
  assert (Hv : 0 ≤ v' ≤ Z.of_nat (length items) + 5) by (unfold v'; lia).
  split; [exact Hv|]. split; [apply stack_length; lia|].
  destruct items as [|x items]; [done|]. simpl length in Hv.
  destruct (lookup_lt_is_Some_2 (x :: items)
              (Z.to_nat v' + (6 - Z.to_nat v') - 6)%nat) as [file Hfile];
    [simpl; lia|].
  exists (6 - Z.to_nat v')%nat, file. apply stack_lookup; [lia|].
  split; [lia|]. split; [lia|done].
Qed.

(** X14. When the items are padded the stack is full and ends with the last
    item. *)
Theorem carousel_initial_stack items :
  items ≠ [] →
  length (stack items (initial_scrollIndex items)) = 7%nat
  ∧ ∃ file, last items = Some file
            ∧ stack items (initial_scrollIndex items) !! 6%nat
              = Some (Some file).
Proof.
  intros Hitems. unfold initial_scrollIndex.
  assert (Hlen : (0 < length items)%nat) by (destruct items; [done|simpl; lia]).
  split.
  - unfold stack, maxItems. rewrite Array_slice_nonneg by lia.
    rewrite length_take, length_drop, paddedItems_length. lia.
  - rewrite last_lookup.
    destruct (lookup_lt_is_Some_2 items (pred (length items))) as [file Hfile];
      [lia|].
    exists file. split; [done|]. apply stack_lookup; [lia|].
    split; [lia|]. split; [lia|]. rewrite <- Hfile. f_equal. lia.
Qed.

(** X15. A click on an image of the stack brings that image to the last place of
    the stack, at a scroll index inside the items. *)
Theorem carousel_click_brings_to_end items (s : Z) (i : nat) (file : ClientFile) :
  0 ≤ s →
  stack items s !! i = Some (Some file) →
  0 ≤ handleClick s (Z.of_nat i) < Z.of_nat (length items)
  ∧ stack items (handleClick s (Z.of_nat i)) !! 6%nat = Some (Some file).
Proof.
  intros Hs (Hi & Hge & Hfile)%stack_lookup; [|done].
  pose proof (lookup_lt_Some _ _ _ Hfile) as Hlt.
  unfold handleClick, maxItems. split; [lia|].
  apply stack_lookup; [lia|]. split; [lia|]. split; [lia|].
  rewrite <- Hfile. f_equal. lia.
Qed.

End CarouselFacts.

Lemma carousel_wheel_keeps_an_image_witness :
  let items := ["a"; "b"; "c"]%string in
  items ≠ []
  ∧ ∃ v', Carousel.handleWheel items (Number.of_Z (-3)) 8 = Some v'
          ∧ 0 ≤ v' ≤ Z.of_nat (length items) + 5
          ∧ (length (Carousel.stack items v') ≤ 7)%nat
          ∧ ∃ i file, Carousel.stack items v' !! i = Some (Some file).
Proof.
  intros items. assert (H : items ≠ []) by done.
  split; [exact H|].
  exact (carousel_wheel_keeps_an_image items (Number.of_Z (-3)) 8 H).
Defined.

Lemma carousel_initial_stack_witness :
  let items := ["a"; "b"; "c"]%string in
  items ≠ []
  ∧ Carousel.stack items (Carousel.initial_scrollIndex items)
    = [None; None; None; None; Some "a"; Some "b"; Some "c"]%string
  ∧ length (Carousel.stack items (Carousel.initial_scrollIndex items)) = 7%nat.
Proof.
  intros items. assert (H : items ≠ []) by done.
  split; [exact H|]. split; [reflexivity|].
  exact (proj1 (carousel_initial_stack items H)).
Defined.

Lemma carousel_click_brings_to_end_witness :
  let items := ["a"; "b"; "c"]%string in
  0 ≤ 2 ∧ Carousel.stack items 2 !! 5%nat = Some (Some "b"%string)
  ∧ Carousel.handleClick 2 5 = 1
  ∧ Carousel.stack items (Carousel.handleClick 2 (Z.of_nat 5)) !! 6%nat
    = Some (Some "b"%string).
Proof.
  intros items. assert (Hs : 0 ≤ 2) by lia.
  assert (Hc : Carousel.stack items 2 !! 5%nat = Some (Some "b"%string))
    by reflexivity.
  split; [exact Hs|]. split; [exact Hc|]. split; [reflexivity|].
  exact (proj2 (carousel_click_brings_to_end items 2 5 "b"%string Hs Hc)).
Defined.

(** ** The extension shown in the inspector *)

Section ExtensionFacts.

Import InspectorHeader.

Variable toUpperCase : string → string.

Lemma prefix_dot (s : string) :
  String.prefix "." s
  = match s with String c _ => bool_decide ("."%char = c) | EmptyString => false end.
Proof.
  destruct s as [|c s]; [done|]. cbn [String.prefix].
  destruct (ascii_dec "." c) as [Heq|Hne].
  - rewrite bool_decide_eq_true_2 by done. by destruct s.
  - by rewrite bool_decide_eq_false_2.
Qed.

Lemma lastIndexOf_from_absent (s : string) (i : Z) :
  occurs "." s = false → lastIndexOf_from s "." i = -1.
Proof.
  revert i. induction s as [|c s IH]; intros i; [done|].
  cbn [occurs lastIndexOf_from]. intros [Hc Hs]%orb_false_iff.
  by rewrite IH, prefix_dot, Hc.
Qed.

Lemma append_nil_l (s : string) : "" +:+ s = s.
Proof. reflexivity. Qed.

Lemma append_cons (c : ascii) (a s : string) :
  String c a +:+ s = String c (a +:+ s).
Proof. reflexivity. Qed.

Lemma lastIndexOf_from_last_dot (pre suf : string) (i : Z) :
  0 ≤ i → occurs "." suf = false →
  lastIndexOf_from (pre +:+ String "." suf) "." i
  = i + Z.of_nat (String.length pre).
Proof.
  intros Hi Hsuf. revert i Hi. induction pre as [|c pre IH]; intros i Hi.
  - rewrite append_nil_l. cbn [lastIndexOf_from String.length].
    rewrite lastIndexOf_from_absent, prefix_dot by done.
    rewrite bool_decide_eq_true_2 by done. simpl. lia.
  - rewrite append_cons. cbn [lastIndexOf_from String.length].
    rewrite IH by lia.
    rewrite (proj2 (Z.eqb_neq _ (-1))) by lia. lia.
Qed.

Lemma length_append (a b : string) :
  String.length (a +:+ b) = (String.length a + String.length b)%nat.
Proof.
  induction a as [|c a IH]; [done|].
  rewrite append_cons. cbn [String.length]. by rewrite IH.
Qed.

Lemma drop_string_append (pre s : string) :
  drop_string (String.length pre) (pre +:+ s) = s.
Proof.
  induction pre as [|c pre IH]; [by destruct s|].
  by rewrite append_cons.
Qed.

Lemma append_assoc_dot (pre suf : string) :
  (pre +:+ ".") +:+ suf = pre +:+ String "." suf.
Proof.
  induction pre as [|c pre IH]; [done|]. by rewrite !append_cons, IH.
Qed.

(** X16. The extension shown for a single file is the part of its path after the
    last dot, in upper case; a path without a dot is shown whole, as its own
    extension. *)
Theorem ext_after_last_dot :
  (∀ path, occurs "." path = false → ext toUpperCase path = toUpperCase path)
  ∧ (∀ pre suf, occurs "." suf = false →
       ext toUpperCase (pre +:+ "." +:+ suf) = toUpperCase suf).
Proof.
  unfold ext, lastIndexOf. split.
  - intros path Hpath. rewrite lastIndexOf_from_absent by done.
    unfold substr. simpl. rewrite Z.min_l by lia. done.
  - intros pre suf Hsuf. f_equal.
    change ("." +:+ suf) with (String "." suf).
    rewrite lastIndexOf_from_last_dot by (done || lia).
    unfold substr. rewrite (proj2 (Z.ltb_ge _ 0)) by lia.
    rewrite Z.min_l by (rewrite length_append; cbn [String.length]; lia).
    replace (Z.to_nat (0 + Z.of_nat (String.length pre) + 1))
      with (String.length (pre +:+ "."))
      by (rewrite length_append; cbn [String.length]; lia).
    rewrite <- (append_assoc_dot pre suf). apply drop_string_append.
Qed.

End ExtensionFacts.

(** ** Counted tags: which, how often and in what order *)

Section TagOrderFacts.

Import FileTag FileTagOrder.

Context {ClientTag : Type} `{EqDecision ClientTag}.

Implicit Types (m counter : Map ClientTag) (t : ClientTag).
Implicit Types (files : list (ClientFile ClientTag)) (ts : list ClientTag).

Lemma occurrences_pos t ts : 0 < occurrences t ts ↔ t ∈ ts.
Proof.
  induction ts as [|u ts IH].
  - unfold occurrences. simpl. rewrite elem_of_nil. lia.
  - rewrite occurrences_cons, elem_of_cons.
    pose proof (occurrences_nonneg t ts).
    destruct (decide (t = u)); [|rewrite <- IH]; split; try lia; tauto.
Qed.

Lemma total_occurrences_nonneg t files : 0 ≤ total_occurrences t files.
Proof.
  induction files as [|f files IH]; [done|].
  change (total_occurrences t (f :: files))
    with (occurrences t (tags f) + total_occurrences t files).
  pose proof (occurrences_nonneg t (tags f)). lia.
Qed.

Lemma total_occurrences_pos t files :
  0 < total_occurrences t files ↔ ∃ f, f ∈ files ∧ t ∈ tags f.
Proof.
  induction files as [|f files IH].
  - split; [done|]. by intros (f & Hf%elem_of_nil & _).
  - change (total_occurrences t (f :: files))
      with (occurrences t (tags f) + total_occurrences t files).
    pose proof (occurrences_nonneg t (tags f)).
    pose proof (total_occurrences_nonneg t files). split.
    + intros Hpos. destruct (decide (t ∈ tags f)) as [Hin|Hout].
      * exists f. split; [apply list_elem_of_here|done].
      * assert (Hocc : ¬ 0 < occurrences t (tags f))
          by (by rewrite occurrences_pos).
        destruct IH as [IH _]. destruct IH as (g & Hg & Ht); [lia|].
        exists g. split; [by apply list_elem_of_further|done].
    + intros (g & [->|Hg]%elem_of_cons & Ht).
      * apply occurrences_pos in Ht. lia.
      * assert (0 < total_occurrences t files) by (apply IH; eauto). lia.
Qed.

(** The counter of [countFileTags], for any collection of files whatever. *)
Lemma counter_get files t :
  Map_get (countFileTags files).1 t
  = if decide (0 < total_occurrences t files)
    then Some (total_occurrences t files) else None.
Proof.
  unfold countFileTags. cbn [fst]. set (counter := foldl _ _ files).
  assert (Hcount : count_of counter t = total_occurrences t files).
  { unfold counter. rewrite count_of_files. done. }
  assert (Hpos : positive counter).
  { apply positive_files. intros u n. discriminate. }
  pose proof (total_occurrences_nonneg t files).
  unfold count_of in Hcount. destruct (Map_get counter t) as [c|] eqn:Hget.
  - specialize (Hpos t c Hget). simpl in Hcount. subst c.
    by rewrite decide_True.
  - simpl in Hcount. rewrite decide_False; [done|lia].
Qed.

(** X1. The counter counts occurrences: for every collection of files, the
    counter maps a tag [t] to [n] exactly when [t] occurs [n ≥ 1] times in
    the files' tags altogether. *)
Theorem counter_counts_occurrences files t (n : Z) :
  Map_get (countFileTags files).1 t = Some n ↔
  1 ≤ n ∧ n = total_occurrences t files.
Proof.
  rewrite counter_get. destruct (decide (0 < total_occurrences t files)).
  - split; [intros [= <-]; lia|]. by intros [_ ->].
  - split; [done|]. intros [? ->]. lia.
Qed.

(** X2. The tags offered are the tags in use, each once and each with a count:
    [sortedTags] holds a tag exactly when some file of the collection
    carries it, holds no tag twice, and the counter has a count of at least
    one for each of its tags, so a label never lacks its count. *)
Theorem sortedTags_are_the_tags_in_use files :
  (∀ t, t ∈ (countFileTags files).2 ↔ ∃ f, f ∈ files ∧ t ∈ tags f)
  ∧ NoDup (countFileTags files).2
  ∧ (∀ t, t ∈ (countFileTags files).2 →
          ∃ n, Map_get (countFileTags files).1 t = Some n ∧ 1 ≤ n).
Proof.
  assert (Hperm : (countFileTags files).2 ≡ₚ (countFileTags files).1.*1).
  { unfold countFileTags. cbn [fst snd]. by rewrite Array_sort_perm. }
  assert (Hnd : NoDup (countFileTags files).1.*1).
  { unfold countFileTags. cbn [fst]. apply NoDup_files. apply NoDup_nil. done. }
  assert (Hin : ∀ t, t ∈ (countFileTags files).2 ↔
                     0 < total_occurrences t files).
  { intros t. rewrite Hperm.
    pose proof (Map_get_None (countFileTags files).1 t) as Hnone.
    rewrite counter_get in Hnone.
    destruct (decide (0 < total_occurrences t files)) as [Hpos|Hpos].
    - split; [done|]. intros _.
      destruct (decide (t ∈ (countFileTags files).1.*1)) as [|Hout]; [done|].
      by apply Hnone in Hout.
    - split; [|done]. intros Hk. exfalso.
      by apply (proj1 Hnone). }
  split; [|split].
  - intros t. by rewrite Hin, total_occurrences_pos.
  - by rewrite Hperm.
  - intros t Ht%Hin. rewrite counter_get, decide_True by done.
    eexists. split; [done|lia].
Qed.

(** *** The order of the tags *)

(** The sort leaves the entries of one count in the order they had. *)
Lemma insert_by_count_filter (n : Z) (x : ClientTag * Z) (l : list (ClientTag * Z)) :
  filter (fun e : ClientTag * Z => e.2 = n) (insert_by (fun a b => b.2 - a.2) x l)
  = filter (fun e : ClientTag * Z => e.2 = n) (x :: l).
Proof.
  induction l as [|y l IH]; [done|]. cbn [insert_by].
  destruct (0 <? y.2 - x.2) eqn:Hcmp; [|done]. apply Z.ltb_lt in Hcmp.
  rewrite (filter_cons _ y), IH, !(filter_cons _ x), (filter_cons _ y).
  repeat case_decide; (done || lia).
Qed.

Lemma Array_sort_count_filter (n : Z) (l : list (ClientTag * Z)) :
  filter (fun e : ClientTag * Z => e.2 = n) (Array_sort (fun a b => b.2 - a.2) l)
  = filter (fun e : ClientTag * Z => e.2 = n) l.
Proof.
  unfold Array_sort. induction l as [|x l IH]; [done|]. cbn [foldr].
  by rewrite insert_by_count_filter, !(filter_cons _ x), IH.
Qed.

Lemma fmap_filter_agree {A B} (f : A → B) (P : A → Prop) (Q : B → Prop)
    `{!∀ x, Decision (P x), !∀ y, Decision (Q y)} (l : list A) :
  (∀ x, x ∈ l → (P x ↔ Q (f x))) →
  f <$> filter P l = filter Q (f <$> l).
Proof.
  induction l as [|x l IH]; intros Hl; [done|].
  rewrite fmap_cons, (filter_cons P), (filter_cons Q).
  pose proof (Hl x (list_elem_of_here _ _)) as Hx.
  assert (IH' : f <$> filter P l = filter Q (f <$> l)).
  { apply IH. intros y Hy. apply Hl. by apply list_elem_of_further. }
  destruct (decide (P x)), (decide (Q (f x))); try tauto.
  by rewrite fmap_cons, IH'.
Qed.

(** X3. Tags of the same count keep the order of the counter: among the tags
    counted [n] times, [sortedTags] has them in the order of the counter's
    entries, which is the order in which the tags were first met. *)
Theorem sortedTags_ties_in_counter_order files (n : Z) :
  filter (fun t => count_of (countFileTags files).1 t = n) (countFileTags files).2
  = filter (fun t => count_of (countFileTags files).1 t = n)
      (countFileTags files).1.*1.
Proof.
  unfold countFileTags. cbn [fst snd]. set (counter := foldl _ _ files).
  assert (Hnd : NoDup counter.*1).
  { apply NoDup_files. apply NoDup_nil. done. }
  assert (Hcount : ∀ e, e ∈ counter → count_of counter e.1 = e.2).
  { intros [t c] He. unfold count_of. cbn [fst snd].
    by rewrite (Map_get_entry counter t c). }
  rewrite <- (fmap_filter_agree fst (fun e : ClientTag * Z => e.2 = n)
                (fun t => count_of counter t = n)
                (Array_sort (fun a b => b.2 - a.2) counter)).
  - rewrite <- (fmap_filter_agree fst (fun e : ClientTag * Z => e.2 = n)
                  (fun t => count_of counter t = n) counter).
    + by rewrite Array_sort_count_filter.
    + intros e He. by rewrite Hcount.
  - intros e He. rewrite Array_sort_perm in He. by rewrite Hcount.
Qed.

Lemma count_tag_keys m t :
  (count_tag m t).*1 = if decide (t ∈ m.*1) then m.*1 else m.*1 ++ [t].
Proof. unfold count_tag. apply Map_set_keys. Qed.

Lemma count_tags_keys ts m :
  (foldl count_tag m ts).*1
  = m.*1 ++ filter (fun t => t ∉ m.*1) (first_occurrences ts).
Proof.
  revert m. induction ts as [|t ts IH]; intros m.
  - simpl. by rewrite app_nil_r.
  - cbn [foldl first_occurrences]. rewrite IH, count_tag_keys.
    rewrite (filter_cons (fun u => u ∉ m.*1) t).
    rewrite (list_filter_filter (fun u => u ∉ m.*1) (fun y => y ≠ t)).
    destruct (decide (t ∈ m.*1)) as [Hin|Hout].
    + rewrite decide_False by tauto. f_equal.
      apply list_filter_iff. intros u. split; [|tauto].
      intros Hu. split; [done|]. by intros ->.
    + rewrite decide_True by done. rewrite <- app_assoc. f_equal. simpl.
      f_equal. apply list_filter_iff. intros u.
      rewrite elem_of_app, list_elem_of_singleton. tauto.
Qed.

Lemma count_files_flat files m :
  foldl (fun counter file => foldl count_tag counter (tags file)) m files
  = foldl count_tag m (all_tags files).
Proof.
  unfold all_tags. revert m. induction files as [|f files IH]; intros m; [done|].
  cbn [foldl fmap list_fmap concat]. by rewrite foldl_app, IH.
Qed.

(** X4. The counter lists the tags in the order in which the loops first meet
    them: its keys are the tags of the files, file by file, each at its first
    occurrence. *)
Theorem counter_in_first_seen_order files :
  (countFileTags files).1.*1 = first_occurrences (all_tags files).
Proof.
  unfold countFileTags. cbn [fst]. rewrite count_files_flat, count_tags_keys.
  change ((@nil (ClientTag * Z)).*1) with (@nil ClientTag).
  rewrite app_nil_l.
  induction (first_occurrences (all_tags files)) as [|x l IH]; [done|].
  rewrite filter_cons_True by apply not_elem_of_nil. by rewrite IH.
Qed.

End TagOrderFacts.

(** ** Byte labels of sizes that are no sizes *)

Section ByteLabelEdges.

Import Number Inspector.

Variable Math_log : number → number.
Variable Math_pow : number → number → number.
Variable toFixed : number → nat → string.

(** X17. An input that is not at or below zero and has no logarithm, as NaN has
    none, gets no unit: [getBytes] makes its five library calls and returns
    the formatted quotient followed by "undefined", never "0 Bytes". *)
Theorem getBytes_without_logarithm (bytes : number) :
  leb bytes (of_Z 0) = false → Math_log bytes = NaN →
  getBytes Math_log Math_pow toFixed bytes
  = ([ Call_log bytes; Call_log (of_Z 1024); Call_floor NaN;
       Call_pow (of_Z 1024) NaN;
       Call_toFixed (div bytes (Math_pow (of_Z 1024) NaN)) 2 ],
     toFixed (div bytes (Math_pow (of_Z 1024) NaN)) 2 +:+ " undefined").
Proof.
  intros Hle Hlog. unfold getBytes. rewrite Hle.
  unfold log, floor, pow, fixed, mbind, mret, Traced_bind, Traced_ret.
  rewrite Hlog. reflexivity.
Qed.

End ByteLabelEdges.

Lemma getBytes_without_logarithm_witness :
  let log (x : Number.number) := x in
  let pow (x y : Number.number) := x in
  let fixed (x : Number.number) (d : nat) :=
    (if Number.isNaN x then "NaN" else "0.00")%string in
  Number.leb Number.NaN (Number.of_Z 0) = false ∧ log Number.NaN = Number.NaN
  ∧ (Inspector.getBytes log pow fixed Number.NaN).2 = "NaN undefined"%string.
Proof.
  intros log pow fixed.
  assert (Hle : Number.leb Number.NaN (Number.of_Z 0) = false) by reflexivity.
  assert (Hlog : log Number.NaN = Number.NaN) by reflexivity.
  split; [exact Hle|]. split; [exact Hlog|].
  rewrite (getBytes_without_logarithm log pow fixed Number.NaN Hle Hlog).
  reflexivity.
Defined.

(** ** The layout for the three thumbnail sizes *)

Section ThumbnailLayout.

Import Number Gallery.

(** The bounds of the cell size, from the guard and the final [Math.min]. *)
Lemma layout_cellSize_bounds (width minSize maxSize : number) :
  finite minSize → leb minSize maxSize = true →
  finite (get_column_layout width minSize maxSize).2
  ∧ leb (get_column_layout width minSize maxSize).2 maxSize = true.
Proof.
  intros Hfin Hle. unfold get_column_layout. cbn [snd].
  set (cellSize := Math_trunc (div width _)).
  pose proof (guarded_finite cellSize minSize Hfin) as Hguard.
  destruct (above_finite minSize maxSize Hfin Hle) as [HM Hinf].
  split; [by apply Math_min_finite|].
  apply Math_min_le; [by apply isFinite_not_NaN|done].
Qed.

(** X18. Whatever the width of the gallery, the cells of the grid are no larger
    than the cell size of the chosen thumbnail size: for small, medium and
    large thumbnails the cell size computed from [getThumbnailSize] is a
    finite number of at most 168, 248 and 328. *)
Theorem thumbnail_cell_within_size (sizeType : SizeType) (width : number) :
  finite (get_column_layout width (getThumbnailSize sizeType).1
            (getThumbnailSize sizeType).2).2
  ∧ leb (get_column_layout width (getThumbnailSize sizeType).1
           (getThumbnailSize sizeType).2).2
        (of_Z match sizeType with small => 168 | medium => 248 | large => 328 end)
    = true.
Proof.
  assert (Hmax : (getThumbnailSize sizeType).2
    = of_Z match sizeType with small => 168 | medium => 248 | large => 328 end)
    by (destruct sizeType; vm_compute; reflexivity).
  rewrite <- Hmax. apply layout_cellSize_bounds.
  - destruct sizeType; vm_compute; reflexivity.
  - destruct sizeType; vm_compute; reflexivity.
Qed.

(** X19. A gallery of no width has no column: for a width of zero the layout is
    zero columns and cells of the least size. *)
Theorem zero_width_layout (s : bool) (minSize maxSize : number) :
  finite minSize → ltb (of_Z 0) minSize = true → leb minSize maxSize = true →
  get_column_layout (S754_zero s) minSize maxSize = (S754_zero s, minSize).
Proof.
  intros Hfin Hpos Hle. unfold get_column_layout.
  assert (Hcols : Math_trunc (div (S754_zero s) minSize) = S754_zero s).
  { destruct minSize as [| | |[] m e]; try done. simpl. by rewrite xorb_false_r. }
  rewrite Hcols. f_equal. change (div (S754_zero s) (S754_zero s)) with NaN.
  simpl. by apply Math_min_below.
Qed.

End ThumbnailLayout.

Lemma zero_width_layout_witness :
  let minSize := (Gallery.getThumbnailSize Gallery.small).1 in
  let maxSize := (Gallery.getThumbnailSize Gallery.small).2 in
  Gallery.finite minSize ∧ Number.ltb (Number.of_Z 0) minSize = true
  ∧ Number.leb minSize maxSize = true
  ∧ Gallery.get_column_layout (Number.of_Z 0) minSize maxSize
    = (Number.of_Z 0, minSize).
Proof.
  intros minSize maxSize.
  assert (Hfin : Gallery.finite minSize) by (vm_compute; reflexivity).
  assert (Hpos : Number.ltb (Number.of_Z 0) minSize = true)
    by (vm_compute; reflexivity).
  assert (Hle : Number.leb minSize maxSize = true) by (vm_compute; reflexivity).
  split; [exact Hfin|]. split; [exact Hpos|]. split; [exact Hle|].
  exact (zero_width_layout false minSize maxSize Hfin Hpos Hle).
Defined.

(** ** The initial scroll offset *)

Section ScrollOffset.

Import Number GalleryScroll.

(** X21. On the initial load, with the dimensions the grid starts with, the
    scroll offset is zero whatever the first item is: the division by zero
    columns gives an infinity or NaN, the product with the cell size of zero
    is NaN, and [|| 0] replaces it. With zero columns but positive cells and
    a positive first item the product is an infinity, which [|| 0] lets
    through. *)
Theorem initialScrollOffset_fallback :
  (∀ firstItem,
     initialScrollOffset firstItem initial_dimensions.1 initial_dimensions.2
     = of_Z 0)
  ∧ (∀ firstItem cellSize s,
       ltb (of_Z 0) firstItem = true → isFinite firstItem = true →
       ltb (of_Z 0) cellSize = true →
       initialScrollOffset firstItem (S754_zero s) cellSize = S754_infinity s).
Proof.
  split.
  - intros firstItem. by destruct firstItem as [| | |[] ? ?].
  - intros firstItem cellSize s Hpos Hfin Hcell.
    destruct firstItem as [| | |[] m e]; try done.
    destruct cellSize as [|[]| |[] m' e']; try done; by destruct s.
Qed.

End ScrollOffset.

(** ** Telling the criterion families apart *)

Section CriterionFamilies.

Import SearchCriteria.

Variable FileDTO_keys : list string.

(** X22. A criterion belongs to one family only, the one its operand selects,
    although the families share operators: no object is assignable to two of
    the four criterion interfaces, while [contains] is an operator of both
    tags and strings and [equals] of both strings and numbers, and the
    binary operators add nothing to [OperatorType]. *)
Theorem criterion_family_by_operand (c : Candidate) :
  (ITagSearchCriteria FileDTO_keys c = true →
     IStringSearchCriteria FileDTO_keys c = false
     ∧ INumberSearchCriteria FileDTO_keys c = false
     ∧ IDateSearchCriteria FileDTO_keys c = false)
  ∧ (IStringSearchCriteria FileDTO_keys c = true →
     INumberSearchCriteria FileDTO_keys c = false
     ∧ IDateSearchCriteria FileDTO_keys c = false)
  ∧ (INumberSearchCriteria FileDTO_keys c = true →
     IDateSearchCriteria FileDTO_keys c = false)
  ∧ (∃ op, op ∈ TagOperators ∧ op ∈ StringOperators)
  ∧ (∃ op, op ∈ StringOperators ∧ op ∈ NumberOperators)
  ∧ (∀ op, OperatorType op = true ↔
           op ∈ TagOperators ∨ op ∈ NumberOperators ∨ op ∈ StringOperators).
Proof.
  unfold ITagSearchCriteria, IStringSearchCriteria, INumberSearchCriteria,
    IDateSearchCriteria.
  split; [|split; [|split; [|split; [|split]]]].
  - destruct (value c) as [| | | | |xs]; simpl;
      rewrite ?andb_false_r; simpl; try done.
  - destruct (value c); simpl; rewrite ?andb_false_r; simpl; try done.
  - destruct (value c); simpl; rewrite ?andb_false_r; simpl; try done.
  - exists "contains". split; apply literal_of_elem; reflexivity.
  - exists "equals". split; apply literal_of_elem; reflexivity.
  - intros op. unfold OperatorType, TagOperatorType, NumberOperatorType,
      StringOperatorType, BinaryOperatorType.
    rewrite !orb_true_iff, !literal_of_elem.
    assert (op ∈ BinaryOperators → op ∈ NumberOperators).
    { unfold BinaryOperators, NumberOperators.
      rewrite !elem_of_cons, elem_of_nil. tauto. }
    tauto.
Qed.

End CriterionFamilies.

Lemma observed_first_item_witness :
  let data := ["a"; "b"; "c"; "d"; "e"]%string in
  0 < 3 ∧ 0 ≤ 1 < GalleryIndex.numRows (Z.of_nat (length data)) 3
  ∧ GalleryIndex.GridRow_cells data 1 3 = [(1, "d"); (2, "e")]%string
  ∧ GalleryIndex.observed_firstItem (GalleryIndex.aria_rowindex 1) 2 = 2
  ∧ 0 ≤ GalleryIndex.scroll_row
          (GalleryIndex.observed_firstItem (GalleryIndex.aria_rowindex 1)
             (Z.of_nat (length (GalleryIndex.GridRow_cells data 1 3)))) 3 < 1.
Proof.
  intros data. assert (Hn : 0 < 3) by lia.
  assert (Hr : 0 ≤ 1 < GalleryIndex.numRows (Z.of_nat (length data)) 3)
    by (vm_compute; split; [discriminate|reflexivity]).
  split; [exact Hn|]. split; [exact Hr|]. split; [reflexivity|].
  split; [reflexivity|].
  apply (proj2 (observed_first_item data 3 1 Hn Hr)); [simpl|]; lia.
Defined.

(** ** The layout is never negative *)

Section LayoutSign.

Import Number Gallery NumberSign.

Lemma binary_round_aux_sign (s : bool) (m e : Z) (l : location) :
  has_sign s (binary_round_aux prec emax s m e l).
Proof.
  unfold binary_round_aux.
  destruct (shr_fexp prec emax m e l) as [mrs e'].
  destruct (shr_fexp prec emax _ e' loc_Exact) as [mrs' e''].
  destruct (shr_m mrs'); simpl; [done| |done].
  by destruct (e'' <=? emax - prec).
Qed.

Lemma binary_round_sign (s : bool) (m : positive) (e : Z) :
  has_sign s (binary_round prec emax s m e).
Proof.
  unfold binary_round. destruct (shl_align _ _ _) as [mz ez].
  apply binary_round_aux_sign.
Qed.

Lemma div_sign (sx sy : bool) (x y : number) :
  has_sign sx x → has_sign sy y → has_sign (xorb sx sy) (div x y).
Proof.
  destruct x as [s|s| |s m e], y as [s'|s'| |s' m' e']; simpl;
    try done; try (by intros -> ->).
  intros -> ->. destruct (SFdiv_core_binary _ _ _ _ _ _) as [[mz ez] lz].
  apply binary_round_aux_sign.
Qed.

Lemma Math_trunc_sign (s : bool) (x : number) :
  has_sign s x → has_sign s (Math_trunc x).
Proof.
  destruct x as [| | |s' m e]; simpl; try done. intros ->.
  destruct (0 <=? e); [done|].
  destruct (Z.shiftr _ _); simpl; try done. apply binary_round_sign.
Qed.

Lemma Math_min_sign (x y : number) :
  has_sign false x → has_sign false y → has_sign false (Math_min x y).
Proof.
  destruct x as [s|s| |s m e], y as [s'|s'| |s' m' e']; simpl; try done;
    intros -> ->; try done;
    by match goal with |- context [if ?b then _ else _] => destruct b end.
Qed.

Lemma has_sign_not_negative (x : number) :
  has_sign false x → ltb x (of_Z 0) = false.
Proof. destruct x as [s|s| |s m e]; simpl; try done; by intros ->. Qed.

Lemma positive_has_sign (x : number) :
  ltb (of_Z 0) x = true → has_sign false x ∧ Gallery.is_zero x = false.
Proof. by destruct x as [s|[]| |[] m e]. Qed.

Lemma at_least_positive_has_sign (m M : number) :
  ltb (of_Z 0) m = true → leb m M = true → has_sign false M.
Proof.
  destruct m as [s|[]| |[] m e]; try done;
    destruct M as [s'|[]| |[] m' e']; done.
Qed.

(** X20. For a width that is not negative and thumbnail sizes [0 < minSize <=
    maxSize], neither the number of columns nor the cell size of the layout
    is below zero. *)
Theorem layout_never_negative (width minSize maxSize : number) :
  leb (of_Z 0) width = true → ltb (of_Z 0) minSize = true →
  leb minSize maxSize = true →
  ltb (get_column_layout width minSize maxSize).1 (of_Z 0) = false
  ∧ ltb (get_column_layout width minSize maxSize).2 (of_Z 0) = false.
Proof.
  intros Hwidth Hpos Hle. unfold get_column_layout. cbn [fst snd].
  destruct (positive_has_sign minSize Hpos) as [Hmin _].
  pose proof (at_least_positive_has_sign minSize maxSize Hpos Hle) as Hmax.
  set (numColumns := Math_trunc (div width minSize)).
  assert (Hcell : ∀ c, has_sign false c →
    has_sign false
      (Math_min (if isNaN c || negb (isFinite c) then minSize else c) maxSize)).
  { intros c Hc. apply Math_min_sign; [|done].
    by destruct (isNaN c || negb (isFinite c)). }
  destruct width as [sw|[]| |[] mw ew]; try done.
  - (* a zero of either sign *)
    assert (Hcols : numColumns = S754_zero sw).
    { unfold numColumns. destruct minSize as [s|[]| |[] m e]; try done;
        simpl; by rewrite xorb_false_r. }
    rewrite Hcols. split; [by destruct sw|].
    apply has_sign_not_negative, (Hcell NaN). done.
  - (* +Infinity *)
    assert (Hcols : has_sign false numColumns).
    { apply Math_trunc_sign, (div_sign false false); done. }
    split; [by apply has_sign_not_negative|].
    apply has_sign_not_negative, Hcell, Math_trunc_sign.
    by apply (div_sign false false).
  - (* a positive finite width *)
    assert (Hcols : has_sign false numColumns).
    { apply Math_trunc_sign, (div_sign false false); done. }
    split; [by apply has_sign_not_negative|].
    apply has_sign_not_negative, Hcell, Math_trunc_sign.
    by apply (div_sign false false).
Qed.

Lemma layout_never_negative_witness :
  let minSize := (getThumbnailSize medium).1 in
  let maxSize := (getThumbnailSize medium).2 in
  leb (of_Z 0) (of_Z 700) = true ∧ ltb (of_Z 0) minSize = true
  ∧ leb minSize maxSize = true
  ∧ get_column_layout (of_Z 700) minSize maxSize = (of_Z 3, of_Z 233)
  ∧ ltb (get_column_layout (of_Z 700) minSize maxSize).1 (of_Z 0) = false
  ∧ ltb (get_column_layout (of_Z 700) minSize maxSize).2 (of_Z 0) = false.
Proof.
  intros minSize maxSize.
  assert (Hw : leb (of_Z 0) (of_Z 700) = true) by (vm_compute; reflexivity).
  assert (Hpos : ltb (of_Z 0) minSize = true) by (vm_compute; reflexivity).
  assert (Hle : leb minSize maxSize = true) by (vm_compute; reflexivity).
  split; [exact Hw|]. split; [exact Hpos|]. split; [exact Hle|].
  split; [vm_compute; reflexivity|].
  exact (layout_never_negative (of_Z 700) minSize maxSize Hw Hpos Hle).
Defined.

End LayoutSign.
